(** * Timeline clip and caption alignment model of the video editor

    A shallow embedding of the editor logic of [src/App.tsx]: the caption
    aligner inside [handleAutoCaptions], the timeline projection computed in
    the render body ([activeClip], [playerSrc], [activeCaptions]) and the
    clip-store mutations [addToTimeline] and [handleDelete]; further the
    playhead, selection and upload handlers of [App.tsx], the click,
    ruler and layout arithmetic of [src/components/Timeline.tsx] and the
    time display and time follow-up of [src/components/VideoPlayer.tsx].

    Numbers.  The source computes on JavaScript numbers.  Times are modelled
    as exact rationals [Q]: every finite double is a rational, and the only
    operations the embedded code performs on times are [+], [-], the
    comparisons, [Math.max] and [Math.min].  Rounding, [NaN] and the
    infinities are outside the model.  Equality of times is [Qeq] ([==]).
    Where rounding decides a property, the arithmetic of the aligner and
    of the interval test is given a second time on binary64 values
    ([toTextClip64], [inInterval64]), and the ruler loop takes a duration
    that may be [+Infinity].

    State.  React state cells are modelled by explicit state passing: a
    handler receives the [editorState] its closure captured at render time
    and, where it calls [setEditorState] with an updater, the state [prev]
    the updater is applied to; it returns the next state. *)

From Stdlib Require Import QArith Qminmax Qround Qabs Lqa ZArith Lia.
From Stdlib Require Import List String Ascii Bool DecimalString Permutation.
From Stdlib Require DecimalNat DecimalPos DecimalZ DecimalFacts.
From Stdlib Require Import Sorted.
From Stdlib Require Import Uint63 Floats.
Import ListNotations.
Local Open Scope Q_scope.

(** ** JavaScript primitives used by the embedded code *)

(** [a < b], [a > b], [a >= b] and [a <= b] on numbers. *)
Definition Qltb (a b : Q) : bool := negb (Qle_bool b a).
Definition Qgtb (a b : Q) : bool := negb (Qle_bool a b).
Definition Qgeb (a b : Q) : bool := Qle_bool b a.
Definition Qleb (a b : Q) : bool := Qle_bool a b.

(** [Math.max(a, b)] and [Math.min(a, b)]. *)
Definition Math_max (a b : Q) : Q := if Qle_bool a b then b else a.
Definition Math_min (a b : Q) : Q := if Qle_bool a b then a else b.

(** [n.toString()] and template-literal conversion of an integer. *)
Definition Z_toString (n : Z) : string := NilZero.string_of_int (Z.to_int n).
Definition nat_toString (n : nat) : string := NilZero.string_of_uint (Nat.to_uint n).

(** Truthiness of a [string | null]: [null] and the empty string are falsy. *)
Definition truthy (s : option string) : bool :=
  match s with
  | None => false
  | Some v => negb (String.eqb v EmptyString)
  end.

(** [a || null] on a [string | undefined]. *)
Definition orNull (s : option string) : option string :=
  if truthy s then s else None.

(** [x === y] between a string and a [string | null]. *)
Definition strictEq (x : string) (y : option string) : bool :=
  match y with
  | None => false
  | Some v => String.eqb x v
  end.

(** [Array.prototype.map] with the callback's index argument, counting
    from [i]. *)
Fixpoint mapi {A B : Type} (f : A -> nat -> B) (i : nat) (l : list A) : list B :=
  match l with
  | [] => []
  | x :: l' => f x i :: mapi f (S i) l'
  end.

(** [.filter(Boolean)] on an array of objects or [null]. *)
Fixpoint filterBoolean {A : Type} (l : list (option A)) : list A :=
  match l with
  | [] => []
  | None :: l' => filterBoolean l'
  | Some x :: l' => x :: filterBoolean l'
  end.

(** ** Data model *)

(** Modelled from the spec: the declaration file [src/types.ts] is missing.
    The fields of [EditorClip] and [EditorState] are those of the object
    literals of [App.tsx]; the clip kinds are the three of the data model
    (video, image, text). *)
Inductive ClipType : Type := video | image | text.

Definition ClipType_eqb (a b : ClipType) : bool :=
  match a, b with
  | video, video | image, image | text, text => true
  | _, _ => false
  end.

Module EditorClip.
Record t : Type := make {
  id : string;
  type : ClipType;
  src : string;
  name : string;
  duration : Q;
  startTime : Q;
  offset : Q
}.
End EditorClip.

Module EditorState.
Record t : Type := make {
  currentTime : Q;
  duration : Q;
  isPlaying : bool;
  selectedClipId : option string;
  clips : list EditorClip.t;
  zoomLevel : Q
}.
End EditorState.

(** Modelled from the spec: [src/services/geminiService.ts] is missing.  A
    caption span returned by [generateCaptions] carries [startTime],
    [endTime] and [text], in source-media time, as [handleAutoCaptions]
    reads them. *)
Module Caption.
Record t : Type := make {
  startTime : Q;
  endTime : Q;
  text : string
}.
End Caption.

(** ** Caption aligner ([handleAutoCaptions], App.tsx lines 169-202) *)

(** The first [.filter] callback: the overlap check against the visible
    part of the source. *)
Definition overlapsTrim (selectedClip : EditorClip.t) (cap : Caption.t) : bool :=
  let clipEndSource :=
    EditorClip.offset selectedClip + EditorClip.duration selectedClip in
  Qltb (Caption.startTime cap) clipEndSource
  && Qgtb (Caption.endTime cap) (EditorClip.offset selectedClip).

(** [`caption-${Date.now()}-${index}`] *)
Definition captionId (now : Z) (index : nat) : string :=
  ("caption-" ++ Z_toString now ++ "-" ++ nat_toString index)%string.

(** The [.map] callback.  [now index] is the value [Date.now()] returns
    when the callback runs for position [index]. *)
Definition toTextClip (selectedClip : EditorClip.t) (now : nat -> Z)
    (cap : Caption.t) (index : nat) : option EditorClip.t :=
  let relativeStart := Caption.startTime cap - EditorClip.offset selectedClip in
  let relativeEnd := Caption.endTime cap - EditorClip.offset selectedClip in
  let startInClip := Math_max 0 relativeStart in
  let endInClip := Math_min (EditorClip.duration selectedClip) relativeEnd in
  let duration := endInClip - startInClip in
  if Qleb duration 0 then None
  else Some {|
    EditorClip.id := captionId (now index) index;
    EditorClip.type := text;
    EditorClip.src := EmptyString;
    EditorClip.name := Caption.text cap;
    EditorClip.duration := duration;
    EditorClip.startTime := EditorClip.startTime selectedClip + startInClip;
    EditorClip.offset := 0
  |}.

(** [const newClips = captions.filter(..).map(..).filter(Boolean)] *)
Definition newClips (selectedClip : EditorClip.t) (now : nat -> Z)
    (captions : list Caption.t) : list EditorClip.t :=
  filterBoolean
    (mapi (toTextClip selectedClip now) 0
       (filter (overlapsTrim selectedClip) captions)).

(** ** [handleAutoCaptions] (App.tsx lines 147-220)

    The handler is asynchronous: it suspends on [fetch], [blob] and
    [generateCaptions], which belong to collaborators outside this file.
    The model takes what these calls deliver as the input [awaited] and
    the state the final updater is applied to as [prev].  The progress flag
    [isGeneratingCaptions] lives in a state cell of its own that no
    property below reads; it is left out. *)

(** What the awaited [fetch], [blob] and [generateCaptions] calls deliver:
    a thrown error or the caption spans. *)
Inductive Awaited : Type :=
  | Rejected
  | Resolved (captions : list Caption.t).

(** What a run of the handler leaves behind: the [alert] messages shown, the
    number of [console.error] calls, and the editor state. *)
Module Outcome.
Record t : Type := make {
  alerts : list string;
  errors : nat;
  state : EditorState.t
}.
End Outcome.

Definition msgSelectVideo : string :=
  "Please select a video clip on the timeline to generate captions for.".
Definition msgNoSpeech : string :=
  "No speech detected or generation failed.".
Definition msgNoneInTrim : string :=
  "Captions generated but none fall within the trimmed video segment.".
Definition msgFailed : string :=
  "Failed to generate captions. Please try again.".

Definition handleAutoCaptions (now : nat -> Z) (editorState : EditorState.t)
    (awaited : Awaited) (prev : EditorState.t) : Outcome.t :=
  let selectedClip :=
    find (fun c => strictEq (EditorClip.id c)
                     (EditorState.selectedClipId editorState))
         (EditorState.clips editorState) in
  match selectedClip with
  | None => Outcome.make [msgSelectVideo] 0 prev
  | Some selectedClip =>
    if negb (ClipType_eqb (EditorClip.type selectedClip) video)
    then Outcome.make [msgSelectVideo] 0 prev
    else
      match awaited with
      | Rejected => Outcome.make [msgFailed] 1 prev
      | Resolved captions =>
        if Nat.eqb (List.length captions) 0
        then Outcome.make [msgNoSpeech] 0 prev
        else
          let newClips := newClips selectedClip now captions in
          if Nat.eqb (List.length newClips) 0
          then Outcome.make [msgNoneInTrim] 0 prev
          else Outcome.make [] 0 {|
            EditorState.currentTime := EditorState.currentTime prev;
            EditorState.duration := EditorState.duration prev;
            EditorState.isPlaying := EditorState.isPlaying prev;
            EditorState.selectedClipId := EditorState.selectedClipId prev;
            EditorState.clips := EditorState.clips prev ++ newClips;
            EditorState.zoomLevel := EditorState.zoomLevel prev
          |}
      end
  end.

(** ** Clip-store mutations *)

(** The [type] parameter of [addToTimeline] is ['image' | 'video']. *)
Inductive AssetType : Type := asset_image | asset_video.

Definition AssetType_clip (a : AssetType) : ClipType :=
  match a with
  | asset_image => image
  | asset_video => video
  end.

(** [addToTimeline] (App.tsx lines 222-236); [now] is [Date.now()]. *)
Definition addToTimeline (now : Z) (src : string) (type : AssetType)
    (editorState prev : EditorState.t) : EditorState.t :=
  let newClip := {|
    EditorClip.id := Z_toString now;
    EditorClip.type := AssetType_clip type;
    EditorClip.src := src;
    EditorClip.name :=
      match type with
      | asset_image => "Generated Image"%string
      | asset_video => "Video Clip"%string
      end;
    EditorClip.duration := 5;
    EditorClip.startTime := EditorState.currentTime editorState;
    EditorClip.offset := 0
  |} in
  {|
    EditorState.currentTime := EditorState.currentTime prev;
    EditorState.duration := EditorState.duration prev;
    EditorState.isPlaying := EditorState.isPlaying prev;
    EditorState.selectedClipId := EditorState.selectedClipId prev;
    EditorState.clips := EditorState.clips prev ++ [newClip];
    EditorState.zoomLevel := EditorState.zoomLevel prev
  |}.

(** [handleDelete] (App.tsx lines 121-129). *)
Definition handleDelete (editorState prev : EditorState.t) : EditorState.t :=
  if truthy (EditorState.selectedClipId editorState)
  then {|
    EditorState.currentTime := EditorState.currentTime prev;
    EditorState.duration := EditorState.duration prev;
    EditorState.isPlaying := EditorState.isPlaying prev;
    EditorState.selectedClipId := None;
    EditorState.clips :=
      filter (fun c => negb (strictEq (EditorClip.id c)
                               (EditorState.selectedClipId prev)))
             (EditorState.clips prev);
    EditorState.zoomLevel := EditorState.zoomLevel prev
  |}
  else prev.

(** ** Timeline projection (App.tsx lines 238-254) *)

(** [currentTime >= c.startTime && currentTime < c.startTime + c.duration] *)
Definition inInterval (currentTime : Q) (c : EditorClip.t) : bool :=
  Qgeb currentTime (EditorClip.startTime c)
  && Qltb currentTime (EditorClip.startTime c + EditorClip.duration c).

(** The callback of the first [find]. *)
Definition isActiveVideo (currentTime : Q) (c : EditorClip.t) : bool :=
  inInterval currentTime c && ClipType_eqb (EditorClip.type c) video.

(** The callback of the fallback [find]. *)
Definition isVideo (c : EditorClip.t) : bool :=
  ClipType_eqb (EditorClip.type c) video.

(** The callback of the [filter] that selects text overlays. *)
Definition isActiveText (currentTime : Q) (c : EditorClip.t) : bool :=
  ClipType_eqb (EditorClip.type c) text && inInterval currentTime c.

Definition activeClip (editorState : EditorState.t) : option EditorClip.t :=
  find (isActiveVideo (EditorState.currentTime editorState))
       (EditorState.clips editorState).

Definition playerSrc (editorState : EditorState.t) : option string :=
  match activeClip editorState with
  | Some c => Some (EditorClip.src c)
  | None =>
    orNull (option_map EditorClip.src
              (find isVideo (EditorState.clips editorState)))
  end.

Definition activeCaptions (editorState : EditorState.t) : list string :=
  map EditorClip.name
      (filter (isActiveText (EditorState.currentTime editorState))
              (EditorState.clips editorState)).

(** The editor state with the given clips and playhead, other fields as
    in the initial state of [App]. *)
Definition stateAt (clips : list EditorClip.t) (time : Q) : EditorState.t :=
  {|
    EditorState.currentTime := time;
    EditorState.duration := 0;
    EditorState.isPlaying := false;
    EditorState.selectedClipId := None;
    EditorState.clips := clips;
    EditorState.zoomLevel := 1
  |}.

(** ** The aligner's arithmetic in binary64

    The same lines of [handleAutoCaptions] and of the projection, with the
    numbers as the IEEE 754 binary64 values JavaScript computes with, every
    sum and difference rounded as the machine rounds it.  These definitions
    decide the properties in which rounding matters. *)







(** ** The specification's wording, for comparison with the code *)

(** The view of a clip the aligner's specification speaks about:
    timeline start, timeline duration and label. *)
Definition placement (c : EditorClip.t) : Q * Q * string :=
  (EditorClip.startTime c, EditorClip.duration c, EditorClip.name c).

(** Two placements agree when their times are equal as rationals and their
    labels are the same string. *)
Definition placement_eq (a b : Q * Q * string) : Prop :=
  fst (fst a) == fst (fst b) /\ snd (fst a) == snd (fst b) /\ snd a = snd b.

(** Specification 4.3, steps 1 to 5, for one caption: overlap test,
    re-projection to clip-local time, clamping, degenerate rejection,
    re-projection to timeline time. *)
Definition spec_alignCaption (timelineStart offset duration : Q)
    (cap : Caption.t) : option (Q * Q * string) :=
  if Qltb (Caption.startTime cap) (offset + duration)
     && Qgtb (Caption.endTime cap) offset
  then
    let localStart := Caption.startTime cap - offset in
    let localEnd := Caption.endTime cap - offset in
    let clampedStart := Qmax 0 localStart in
    let clampedEnd := Qmin duration localEnd in
    if Qleb (clampedEnd - clampedStart) 0 then None
    else Some (timelineStart + clampedStart,
               clampedEnd - clampedStart,
               Caption.text cap)
  else None.

(** Specification 4.3: the emitted clips, per caption in input order. *)
Definition spec_align (selectedClip : EditorClip.t)
    (captions : list Caption.t) : list (Q * Q * string) :=
  filterBoolean
    (map (spec_alignCaption (EditorClip.startTime selectedClip)
            (EditorClip.offset selectedClip)
            (EditorClip.duration selectedClip))
         captions).

(** Specification 4.2, step 1: a clip of kind video or image whose interval
    contains the time; among several, the last one in collection order. *)
Definition spec_isVisualCandidate (time : Q) (c : EditorClip.t) : bool :=
  (ClipType_eqb (EditorClip.type c) video
   || ClipType_eqb (EditorClip.type c) image)
  && inInterval time c.

Definition spec_activeVisualClip (clips : list EditorClip.t) (time : Q)
  : option EditorClip.t :=
  find (spec_isVisualCandidate time) (rev clips).


(** A caption span is well formed when it starts before it ends. *)
Definition wellFormed (cap : Caption.t) : bool :=
  Qltb (Caption.startTime cap) (Caption.endTime cap).

(** [Subseq l1 l2]: [l1] is [l2] with some elements left out, the others
    in their original order. *)
Inductive Subseq {A : Type} : list A -> list A -> Prop :=
  | Subseq_nil : Subseq [] []
  | Subseq_skip (x : A) (l1 l2 : list A) :
      Subseq l1 l2 -> Subseq l1 (x :: l2)
  | Subseq_keep (x : A) (l1 l2 : list A) :
      Subseq l1 l2 -> Subseq (x :: l1) (x :: l2).

(** ** Sample data of the specification's testable properties *)

(** A video clip trimmed to the source window [2, 6): offset 2, duration 4,
    placed at [timelineStart]. *)
Definition trimmedClip (timelineStart : Q) : EditorClip.t :=
  {|
    EditorClip.id := "1700000000000";
    EditorClip.type := video;
    EditorClip.src := "blob:clip";
    EditorClip.name := "Video Clip";
    EditorClip.duration := 4;
    EditorClip.startTime := timelineStart;
    EditorClip.offset := 2
  |}.

(** One video clip on [0, 10) and one text clip on [3, 5). *)
Definition videoClip_0_10 : EditorClip.t :=
  {|
    EditorClip.id := "1700000000000";
    EditorClip.type := video;
    EditorClip.src := "blob:clip";
    EditorClip.name := "Video Clip";
    EditorClip.duration := 10;
    EditorClip.startTime := 0;
    EditorClip.offset := 0
  |}.

Definition textClip_3_5 (label : string) : EditorClip.t :=
  {|
    EditorClip.id := "caption-1700000000001-0";
    EditorClip.type := text;
    EditorClip.src := EmptyString;
    EditorClip.name := label;
    EditorClip.duration := 2;
    EditorClip.startTime := 3;
    EditorClip.offset := 0
  |}.

(** A second video clip and an image clip that overlap [videoClip_0_10]. *)
Definition videoClip_2_8 : EditorClip.t :=
  {|
    EditorClip.id := "1700000000002";
    EditorClip.type := video;
    EditorClip.src := "blob:other";
    EditorClip.name := "Video Clip";
    EditorClip.duration := 6;
    EditorClip.startTime := 2;
    EditorClip.offset := 0
  |}.

Definition imageClip_2_7 : EditorClip.t :=
  {|
    EditorClip.id := "1700000000003";
    EditorClip.type := image;
    EditorClip.src := "data:image/png;base64,AAAA";
    EditorClip.name := "Generated Image";
    EditorClip.duration := 5;
    EditorClip.startTime := 2;
    EditorClip.offset := 0
  |}.

(** An editor state whose selected clip is the video clip on [0, 10). *)
Definition selectedVideoState : EditorState.t :=
  {|
    EditorState.currentTime := 0;
    EditorState.duration := 10;
    EditorState.isPlaying := false;
    EditorState.selectedClipId := Some "1700000000000"%string;
    EditorState.clips := [videoClip_0_10];
    EditorState.zoomLevel := 1
  |}.

(** A clock that always reads the same instant. *)
Definition frozenClock (index : nat) : Z := 1700000000001%Z.

(** ** Playhead, playback and selection handlers (App.tsx lines 72-86, 431) *)

(** [handleTimeUpdate]: the video element reports its current time. *)
Definition handleTimeUpdate (time : Q) (prev : EditorState.t) : EditorState.t :=
  {|
    EditorState.currentTime := time;
    EditorState.duration := EditorState.duration prev;
    EditorState.isPlaying := EditorState.isPlaying prev;
    EditorState.selectedClipId := EditorState.selectedClipId prev;
    EditorState.clips := EditorState.clips prev;
    EditorState.zoomLevel := EditorState.zoomLevel prev
  |}.

(** [handleDurationChange]: the video element reports its duration. *)
Definition handleDurationChange (duration : Q) (prev : EditorState.t)
  : EditorState.t :=
  {|
    EditorState.currentTime := EditorState.currentTime prev;
    EditorState.duration := duration;
    EditorState.isPlaying := EditorState.isPlaying prev;
    EditorState.selectedClipId := EditorState.selectedClipId prev;
    EditorState.clips := EditorState.clips prev;
    EditorState.zoomLevel := EditorState.zoomLevel prev
  |}.

Definition handlePlayPause (prev : EditorState.t) : EditorState.t :=
  {|
    EditorState.currentTime := EditorState.currentTime prev;
    EditorState.duration := EditorState.duration prev;
    EditorState.isPlaying := negb (EditorState.isPlaying prev);
    EditorState.selectedClipId := EditorState.selectedClipId prev;
    EditorState.clips := EditorState.clips prev;
    EditorState.zoomLevel := EditorState.zoomLevel prev
  |}.

Definition handleSeek (time : Q) (prev : EditorState.t) : EditorState.t :=
  {|
    EditorState.currentTime := time;
    EditorState.duration := EditorState.duration prev;
    EditorState.isPlaying := EditorState.isPlaying prev;
    EditorState.selectedClipId := EditorState.selectedClipId prev;
    EditorState.clips := EditorState.clips prev;
    EditorState.zoomLevel := EditorState.zoomLevel prev
  |}.

(** The [onSelectClip] callback handed to [Timeline]. *)
Definition onSelectClip (id : string) (prev : EditorState.t) : EditorState.t :=
  {|
    EditorState.currentTime := EditorState.currentTime prev;
    EditorState.duration := EditorState.duration prev;
    EditorState.isPlaying := EditorState.isPlaying prev;
    EditorState.selectedClipId := Some id;
    EditorState.clips := EditorState.clips prev;
    EditorState.zoomLevel := EditorState.zoomLevel prev
  |}.

(** The state [App] starts in (App.tsx lines 40-47). *)
Definition initialState : EditorState.t :=
  {|
    EditorState.currentTime := 0;
    EditorState.duration := 0;
    EditorState.isPlaying := false;
    EditorState.selectedClipId := None;
    EditorState.clips := [];
    EditorState.zoomLevel := 1
  |}.

(** ** [handleFileUpload] (App.tsx lines 89-113) *)

(** The two fields of a DOM [File] the handler reads. *)
Module File.
Record t : Type := make {
  name : string;
  type : string
}.
End File.

(** [s.startsWith(p)] *)
Definition startsWith (s p : string) : bool := String.prefix p s.

(** [files] is [e.target.files] ([null] or a list), [url] what
    [URL.createObjectURL] returns for the first file, [now] the reading of
    [Date.now()].  The result is the next [uploadedFiles] and the next
    editor state. *)
Definition handleFileUpload (now : Z) (url : string)
    (files : option (list File.t)) (editorState : EditorState.t)
    (prevUploaded : list string) (prev : EditorState.t)
  : list string * EditorState.t :=
  match files with
  | Some (file :: _) =>
    let uploaded := prevUploaded ++ [url] in
    if Nat.eqb (List.length (EditorState.clips editorState)) 0
    then
      let newClip := {|
        EditorClip.id := Z_toString now;
        EditorClip.type :=
          if startsWith (File.type file) "video" then video else image;
        EditorClip.src := url;
        EditorClip.name := File.name file;
        EditorClip.duration := 10;
        EditorClip.startTime := 0;
        EditorClip.offset := 0
      |} in
      (uploaded, {|
         EditorState.currentTime := EditorState.currentTime prev;
         EditorState.duration := EditorState.duration prev;
         EditorState.isPlaying := EditorState.isPlaying prev;
         EditorState.selectedClipId := Some (EditorClip.id newClip);
         EditorState.clips := [newClip];
         EditorState.zoomLevel := EditorState.zoomLevel prev
       |})
    else (uploaded, prev)
  | _ => (prevUploaded, prev)
  end.

(** ** Timeline component (components/Timeline.tsx) *)

(** [a || b] on numbers: [b] when [a] is zero. *)
Definition orElse (a b : Q) : Q := if Qeq_bool a 0 then b else a.

(** The two fields of [getBoundingClientRect()] the click handler reads. *)
Module DOMRect.
Record t : Type := make {
  left : Q;
  width : Q
}.
End DOMRect.

(** [handleTimelineClick] (lines 32-39): the time handed to [onSeek], if
    the track element is mounted. *)
Definition handleTimelineClick (timelineRef : option DOMRect.t)
    (clientX duration : Q) : option Q :=
  match timelineRef with
  | Some rect =>
    let x := clientX - DOMRect.left rect in
    let percentage := Math_max 0 (Math_min 1 (x / DOMRect.width rect)) in
    Some (percentage * orElse duration 10)
  | None => None
  end.

(** [renderClip] (lines 57-60): the [width] and [left] percentages of a
    clip's box. *)
Definition clipWidth (duration : Q) (clip : EditorClip.t) : Q :=
  (EditorClip.duration clip / orElse duration 1) * 100.

Definition clipLeft (duration : Q) (clip : EditorClip.t) : Q :=
  (EditorClip.startTime clip / orElse duration 1) * 100.

(** The [left] percentage of the playhead (line 137). *)
Definition playheadLeft (currentTime duration : Q) : Q :=
  (currentTime / orElse duration 1) * 100.

(** The clips drawn on the video track (line 150) and on the text track
    (line 158). *)
Definition videoTrack (clips : list EditorClip.t) : list EditorClip.t :=
  filter (fun c => ClipType_eqb (EditorClip.type c) video
                   || ClipType_eqb (EditorClip.type c) image) clips.

Definition textTrack (clips : list EditorClip.t) : list EditorClip.t :=
  filter (fun c => ClipType_eqb (EditorClip.type c) text) clips.

(** The [duration] prop of [Timeline]: a finite number of seconds, or
    the [+Infinity] a video element reports for media without a known
    end. *)
Inductive Seconds : Type :=
  | Finite (q : Q)
  | Infinite.

(** [i <= t], [t > q] and [t || d] for a [t] that may be infinite. *)
Definition Seconds_geb (t : Seconds) (i : Q) : bool :=
  match t with
  | Finite q => Qleb i q
  | Infinite => true
  end.

Definition Seconds_gtb (t : Seconds) (q : Q) : bool :=
  match t with
  | Finite x => Qgtb x q
  | Infinite => true
  end.

Definition Seconds_orElse (t : Seconds) (d : Q) : Seconds :=
  match t with
  | Finite x => Finite (orElse x d)
  | Infinite => Infinite
  end.

(** The loop of [renderTimeMarkers] (lines 47-53), from the counter value
    [i]: the labels of the markers pushed.  [fuel] bounds the number of
    iterations; [None] means it ran out. *)
Fixpoint markersLoop (fuel : nat) (i : Q) (totalSeconds : Seconds)
    (interval : Q) : option (list Q) :=
  if Seconds_geb totalSeconds i then
    match fuel with
    | O => None
    | S fuel' =>
      option_map (cons i)
        (markersLoop fuel' (i + interval) totalSeconds interval)
    end
  else Some [].

(** [renderTimeMarkers] (lines 42-55). *)
Definition renderTimeMarkers (fuel : nat) (duration : Seconds)
  : option (list Q) :=
  let totalSeconds := Seconds_orElse duration 60 in
  let interval := if Seconds_gtb totalSeconds 60 then 10 else 5 in
  markersLoop fuel 0 totalSeconds interval.

(** ** Video player component (components/VideoPlayer.tsx) *)

(** [Math.floor], [Math.trunc] and the remainder [a % b] (the sign of the
    dividend, as [a - b * trunc(a / b)]). *)
Definition Math_floor (q : Q) : Z := Qfloor q.

Definition Math_trunc (q : Q) : Z :=
  if Qle_bool 0 q then Qfloor q else Qceiling q.

Definition Qrem (a b : Q) : Q := a - b * inject_Z (Math_trunc (a / b)).

(** [s.padStart(targetLength, fill)] for a one-character [fill]. *)
Definition padStart (targetLength : nat) (fill : ascii) (s : string) : string :=
  (string_of_list_ascii (repeat fill (targetLength - String.length s)) ++ s)%string.

(** The three numbers [formatTime] prints (lines 66-68): minutes, seconds
    and hundredths of a second. *)
Definition formatTimeParts (time : Q) : Z * Z * Z :=
  let minutes := Math_floor (time / 60) in
  let seconds := Math_floor (Qrem time 60) in
  let ms := Math_floor (Qrem time 1 * 100) in
  (minutes, seconds, ms).

(** [formatTime] (lines 65-70). *)
Definition formatTime (time : Q) : string :=
  let '(minutes, seconds, ms) := formatTimeParts time in
  (padStart 2 "0" (Z_toString minutes) ++ ":"
   ++ padStart 2 "0" (Z_toString seconds) ++ ":"
   ++ padStart 2 "0" (Z_toString ms))%string.

(** The effect that follows [currentTime] (lines 46-50): the value of
    [videoRef.current.currentTime] after it ran, for a mounted video
    element whose current time was [videoTime]. *)
Definition syncVideoTime (videoTime currentTime : Q) : Q :=
  if Qgtb (Qabs (videoTime - currentTime)) (1 # 2)
  then currentTime
  else videoTime.

(** ** Reachable editor states

    The states the editor can be in: the initial state and what the
    handlers make of a reachable state.  The environment is taken as the
    browser defines it: a video element reports non-negative times and
    durations, the track element has a positive width, and a clip can be
    clicked only if it is drawn, that is, stored.  A run of
    [handleAutoCaptions] reads the state of the render it was started in
    and, after its awaits, updates the state current by then. *)
Inductive Reachable : EditorState.t -> Prop :=
  | Reach_init : Reachable initialState
  | Reach_timeUpdate (s : EditorState.t) (time : Q) :
      Reachable s -> 0 <= time -> Reachable (handleTimeUpdate time s)
  | Reach_durationChange (s : EditorState.t) (duration : Q) :
      Reachable s -> 0 <= duration ->
      Reachable (handleDurationChange duration s)
  | Reach_playPause (s : EditorState.t) :
      Reachable s -> Reachable (handlePlayPause s)
  | Reach_timelineClick (s : EditorState.t) (rect : DOMRect.t)
      (clientX time : Q) :
      Reachable s -> 0 < DOMRect.width rect ->
      handleTimelineClick (Some rect) clientX (EditorState.duration s)
        = Some time ->
      Reachable (handleSeek time s)
  | Reach_selectClip (s : EditorState.t) (c : EditorClip.t) :
      Reachable s -> In c (EditorState.clips s) ->
      Reachable (onSelectClip (EditorClip.id c) s)
  | Reach_delete (s : EditorState.t) :
      Reachable s -> Reachable (handleDelete s s)
  | Reach_fileUpload (s : EditorState.t) (now : Z) (url : string)
      (files : option (list File.t)) (uploaded : list string) :
      Reachable s ->
      Reachable (snd (handleFileUpload now url files s uploaded s))
  | Reach_addToTimeline (s : EditorState.t) (now : Z) (src : string)
      (type : AssetType) :
      Reachable s -> Reachable (addToTimeline now src type s s)
  | Reach_autoCaptions (started s : EditorState.t) (now : nat -> Z)
      (awaited : Awaited) :
      Reachable started -> Reachable s ->
      Reachable (Outcome.state (handleAutoCaptions now started awaited s)).

(** The invariant of reachable states, clip by clip: a non-empty id, a
    positive duration, a non-negative start and no trim offset; a text
    clip has no source; a media clip has one of the two built-in
    durations, 10 (upload) or 5 (insertion). *)
Definition clipInvariant (c : EditorClip.t) : Prop :=
  EditorClip.id c <> EmptyString /\
  0 < EditorClip.duration c /\
  0 <= EditorClip.startTime c /\
  EditorClip.offset c == 0 /\
  (EditorClip.type c = text -> EditorClip.src c = EmptyString) /\
  (EditorClip.type c <> text ->
   EditorClip.duration c = 10 \/ EditorClip.duration c = 5).

(** The invariant of reachable states: playhead and duration are not
    negative, every clip satisfies [clipInvariant], and the selection is
    empty or names a stored clip. *)
Definition stateInvariant (s : EditorState.t) : Prop :=
  0 <= EditorState.currentTime s /\
  0 <= EditorState.duration s /\
  Forall clipInvariant (EditorState.clips s) /\
  match EditorState.selectedClipId s with
  | None => True
  | Some id => exists c, In c (EditorState.clips s) /\ EditorClip.id c = id
  end.

(** * Properties *)

(** ** Comparisons, [Math.max] and [Math.min] *)

Lemma Qltb_lt (a b : Q) : Qltb a b = true <-> a < b.
Proof.
  unfold Qltb. rewrite negb_true_iff.
  split; intro H.
  - apply Qnot_le_lt. intro Hle.
    apply Qle_bool_iff in Hle. congruence.
  - destruct (Qle_bool b a) eqn:E; [|reflexivity].
    apply Qle_bool_iff in E. lra.
Qed.

Lemma Qgtb_gt (a b : Q) : Qgtb a b = true <-> b < a.
Proof. unfold Qgtb. apply (Qltb_lt b a). Qed.

Lemma Qgeb_ge (a b : Q) : Qgeb a b = true <-> b <= a.
Proof. unfold Qgeb. apply Qle_bool_iff. Qed.

Lemma Qleb_le (a b : Q) : Qleb a b = true <-> a <= b.
Proof. unfold Qleb. apply Qle_bool_iff. Qed.

Lemma Qleb_gt (a b : Q) : Qleb a b = false <-> b < a.
Proof.
  split; intro H.
  - apply Qnot_le_lt. intro Hle. apply Qleb_le in Hle. congruence.
  - destruct (Qleb a b) eqn:E; [|reflexivity].
    apply Qleb_le in E. lra.
Qed.

Lemma Qltb_ge (a b : Q) : Qltb a b = false <-> b <= a.
Proof.
  split; intro H.
  - apply Qnot_lt_le. intro Hlt. apply Qltb_lt in Hlt. congruence.
  - destruct (Qltb a b) eqn:E; [|reflexivity].
    apply Qltb_lt in E. lra.
Qed.

Lemma Math_max_cases (a b : Q) :
  (a <= b /\ Math_max a b = b) \/ (b < a /\ Math_max a b = a).
Proof.
  unfold Math_max. destruct (Qle_bool a b) eqn:E.
  - left. split; [now apply Qle_bool_iff | reflexivity].
  - right. split; [now apply (Qleb_gt a b) | reflexivity].
Qed.

Lemma Math_min_cases (a b : Q) :
  (a <= b /\ Math_min a b = a) \/ (b < a /\ Math_min a b = b).
Proof.
  unfold Math_min. destruct (Qle_bool a b) eqn:E.
  - left. split; [now apply Qle_bool_iff | reflexivity].
  - right. split; [now apply (Qleb_gt a b) | reflexivity].
Qed.

Lemma Math_max_Qmax (a b : Q) : Math_max a b == Qmax a b.
Proof.
  destruct (Math_max_cases a b) as [[H ->]|[H ->]];
    destruct (Q.max_spec a b) as [[H' E]|[H' E]]; rewrite E; lra.
Qed.

Lemma Math_min_Qmin (a b : Q) : Math_min a b == Qmin a b.
Proof.
  destruct (Math_min_cases a b) as [[H ->]|[H ->]];
    destruct (Q.min_spec a b) as [[H' E]|[H' E]]; rewrite E; lra.
Qed.

Lemma Qleb_compat (a b c d : Q) : a == c -> b == d -> Qleb a b = Qleb c d.
Proof.
  intros H1 H2. unfold Qleb. now rewrite H1, H2.
Qed.

(** Turn boolean comparisons in the context and the goal into order
    facts. *)
Ltac order_facts :=
  repeat match goal with
  | H : _ && _ = true |- _ => apply andb_true_iff in H; destruct H
  | H : Qltb _ _ = true |- _ => apply Qltb_lt in H
  | H : Qltb _ _ = false |- _ => apply Qltb_ge in H
  | H : Qgtb _ _ = true |- _ => apply Qgtb_gt in H
  | H : Qgeb _ _ = true |- _ => apply Qgeb_ge in H
  | H : Qleb _ _ = true |- _ => apply Qleb_le in H
  | H : Qleb _ _ = false |- _ => apply Qleb_gt in H
  end.

(** ** Lists *)

Lemma filterBoolean_In {A : Type} (l : list (option A)) (x : A) :
  In x (filterBoolean l) <-> In (Some x) l.
Proof.
  induction l as [|[y|] l IH]; simpl.
  - tauto.
  - rewrite IH. split; intros [H|H]; auto; left; congruence.
  - rewrite IH. split; [auto | intros [H|H]; [discriminate | assumption]].
Qed.

Lemma mapi_In {A B : Type} (f : A -> nat -> B) (l : list A) (i : nat) (y : B) :
  In y (mapi f i l) -> exists x j, In x l /\ y = f x j.
Proof.
  revert i. induction l as [|x l IH]; simpl; intros i H.
  - contradiction.
  - destruct H as [H|H].
    + exists x, i. auto.
    + destruct (IH _ H) as (x' & j & Hin & E). exists x', j. auto.
Qed.

(** The first match of [find], as a decomposition of the list. *)
Lemma find_first {A : Type} (p : A -> bool) (l : list A) (x : A) :
  find p l = Some x <->
  exists l1 l2, l = l1 ++ x :: l2 /\ p x = true /\
                forall y, In y l1 -> p y = false.
Proof.
  split.
  - induction l as [|a l IH]; simpl; [discriminate|].
    destruct (p a) eqn:E; intro H.
    + injection H as ->. exists [], l. simpl. repeat split; auto.
      intros y [].
    + destruct (IH H) as (l1 & l2 & -> & Hp & Hn).
      exists (a :: l1), l2. simpl. repeat split; auto.
      intros y [<-|Hy]; auto.
  - intros (l1 & l2 & -> & Hp & Hn).
    induction l1 as [|a l1 IH]; simpl.
    + now rewrite Hp.
    + rewrite (Hn a (or_introl eq_refl)). apply IH.
      intros y Hy. apply Hn. now right.
Qed.

Lemma find_none_iff {A : Type} (p : A -> bool) (l : list A) :
  find p l = None <-> forall y, In y l -> p y = false.
Proof.
  split.
  - apply find_none.
  - induction l as [|a l IH]; simpl; intro H; [reflexivity|].
    rewrite (H a (or_introl eq_refl)). apply IH. intros y Hy. apply H. now right.
Qed.

(** ** The caption aligner *)

Section Aligner.
Variable selectedClip : EditorClip.t.
Variable now : nat -> Z.

Let timelineStart := EditorClip.startTime selectedClip.
Let offset := EditorClip.offset selectedClip.
Let duration := EditorClip.duration selectedClip.

Lemma overlapsTrim_iff (cap : Caption.t) :
  overlapsTrim selectedClip cap = true <->
  Caption.startTime cap < offset + duration /\ offset < Caption.endTime cap.
Proof.
  unfold overlapsTrim. cbv zeta.
  rewrite andb_true_iff, Qltb_lt, Qgtb_gt. reflexivity.
Qed.

(** The clamped local interval the [map] callback computes agrees with
    the one of the specification. *)
Lemma clamped_length_agrees (cap : Caption.t) :
  Math_min duration (Caption.endTime cap - offset)
    - Math_max 0 (Caption.startTime cap - offset)
  == Qmin duration (Caption.endTime cap - offset)
     - Qmax 0 (Caption.startTime cap - offset).
Proof. now rewrite Math_max_Qmax, Math_min_Qmin. Qed.

(** What the [map] callback returns: nothing when the clamped length is
    not positive, otherwise a text clip placed as the code says. *)
Lemma toTextClip_cases (cap : Caption.t) (index : nat) :
  let startInClip := Math_max 0 (Caption.startTime cap - offset) in
  let endInClip := Math_min duration (Caption.endTime cap - offset) in
  (endInClip - startInClip <= 0 /\
   toTextClip selectedClip now cap index = None)
  \/
  (0 < endInClip - startInClip /\
   toTextClip selectedClip now cap index =
     Some (EditorClip.make (captionId (now index) index) text EmptyString
             (Caption.text cap) (endInClip - startInClip)
             (timelineStart + startInClip) 0)).
Proof.
  cbv zeta. unfold toTextClip. cbv zeta.
  fold offset duration timelineStart.
  destruct (Qleb _ 0) eqn:E; order_facts; [left | right]; auto.
Qed.

(** One caption: the callback pair of the code against steps 1 to 5 of
    the specification. *)
Lemma alignCaption_agrees (cap : Caption.t) (index : nat) :
  match
    (if overlapsTrim selectedClip cap
     then toTextClip selectedClip now cap index else None),
    spec_alignCaption timelineStart offset duration cap
  with
  | Some c, Some p =>
      placement_eq (placement c) p /\ EditorClip.type c = text
  | None, None => True
  | _, _ => False
  end.
Proof.
  unfold spec_alignCaption, overlapsTrim. cbv zeta.
  fold offset duration.
  destruct (Qltb _ _ && Qgtb _ _); [|exact I].
  rewrite <- (Qleb_compat _ _ _ _ (clamped_length_agrees cap) (Qeq_refl 0)).
  destruct (toTextClip_cases cap index) as [[H ->]|[H ->]].
  - apply Qleb_le in H. rewrite H. exact I.
  - apply Qleb_gt in H. rewrite H.
    unfold placement_eq, placement. simpl.
    repeat split.
    + now rewrite Math_max_Qmax.
    + apply clamped_length_agrees.
Qed.

Lemma newClips_agrees_from (captions : list Caption.t) (i : nat) :
  Forall2 placement_eq
    (map placement
       (filterBoolean
          (mapi (toTextClip selectedClip now) i
             (filter (overlapsTrim selectedClip) captions))))
    (spec_align selectedClip captions).
Proof.
  revert i. unfold spec_align.
  fold timelineStart offset duration.
  induction captions as [|cap captions IH]; intro i; simpl.
  - constructor.
  - pose proof (alignCaption_agrees cap i) as H.
    destruct (overlapsTrim selectedClip cap); simpl.
    + destruct (toTextClip selectedClip now cap i) as [c|];
        destruct (spec_alignCaption _ _ _ cap) as [p|];
        try contradiction; simpl.
      * constructor; [apply H | apply IH].
      * apply IH.
    + destruct (spec_alignCaption _ _ _ cap) as [p|];
        try contradiction; simpl.
      apply IH.
Qed.

(** Every emitted clip comes from a caption that passed the overlap
    check and has a positive clamped length. *)
Lemma newClips_In (captions : list Caption.t) (c : EditorClip.t) :
  In c (newClips selectedClip now captions) ->
  exists cap index,
    In cap captions /\ overlapsTrim selectedClip cap = true /\
    toTextClip selectedClip now cap index = Some c.
Proof.
  unfold newClips. rewrite filterBoolean_In. intro H.
  apply mapi_In in H. destruct H as (cap & j & Hin & E).
  apply filter_In in Hin. destruct Hin as [Hin Hov].
  exists cap, j. auto.
Qed.

End Aligner.

(** The aligner on a single caption, in the terms of the specification. *)
Lemma newClips_single (selectedClip : EditorClip.t) (now : nat -> Z)
    (cap : Caption.t) :
  let offset := EditorClip.offset selectedClip in
  let duration := EditorClip.duration selectedClip in
  let clampedStart := Qmax 0 (Caption.startTime cap - offset) in
  let clampedEnd := Qmin duration (Caption.endTime cap - offset) in
  (Caption.startTime cap < offset + duration /\ offset < Caption.endTime cap ->
   0 < clampedEnd - clampedStart ->
   exists c,
     newClips selectedClip now [cap] = [c] /\
     EditorClip.type c = text /\
     EditorClip.startTime c
       == EditorClip.startTime selectedClip + clampedStart /\
     EditorClip.duration c == clampedEnd - clampedStart /\
     EditorClip.name c = Caption.text cap)
  /\
  (~ (Caption.startTime cap < offset + duration /\
      offset < Caption.endTime cap) ->
   newClips selectedClip now [cap] = [])
  /\
  (clampedEnd - clampedStart <= 0 -> newClips selectedClip now [cap] = []).
Proof.
  cbv zeta.
  pose proof (overlapsTrim_iff selectedClip cap) as Hov.
  pose proof (clamped_length_agrees selectedClip cap) as Hlen.
  pose proof (toTextClip_cases selectedClip now cap 0) as Hc.
  cbv zeta in Hc.
  unfold newClips. simpl.
  repeat split.
  - intros H Hpos. apply Hov in H. rewrite H. simpl.
    destruct Hc as [[Hle _]|[_ ->]]; [lra|].
    eexists. split; [reflexivity|]. simpl.
    repeat split.
    + now rewrite Math_max_Qmax.
    + exact Hlen.
  - intro H. destruct (overlapsTrim selectedClip cap); [|reflexivity].
    exfalso. apply H, Hov. reflexivity.
  - intro Hle. destruct (overlapsTrim selectedClip cap); [|reflexivity].
    simpl. destruct Hc as [[_ ->]|[Hpos _]]; [reflexivity | lra].
Qed.

(** C1.  The caption aligner of [handleAutoCaptions] follows steps 1 to 5
    of the specification.  For every source clip, clock and caption
    sequence the clips it emits are, in order and up to their generated ids,
    the placements the specification's per-caption algorithm yields.  For
    every single caption (well formed or not): the first filter keeps it
    iff [startTime < offset + duration] and [endTime > offset]; if it
    overlaps the trim window in this sense and its
    clamped length is positive, exactly one text clip is emitted, with
    [timelineStart = sourceClip.timelineStart + clampedStart],
    [timelineDuration = clampedEnd - clampedStart] and the caption text as
    label; if it does not overlap, or its clamped length is not positive,
    nothing is emitted.  Against offset 2 and duration 4: caption (5, 8)
    gives one clip at [timelineStart + 3] of duration 1; caption (0, 1) is
    dropped; caption (6, 9) is dropped, its clamped length being 0 (the
    overlap check of the code already discards it, since 6 < 6 fails). *)
Theorem caption_aligner_follows_spec :
  (forall selectedClip now captions,
     Forall2 placement_eq
       (map placement (newClips selectedClip now captions))
       (spec_align selectedClip captions))
  /\
  (forall selectedClip cap,
     overlapsTrim selectedClip cap = true <->
     Caption.startTime cap
       < EditorClip.offset selectedClip + EditorClip.duration selectedClip /\
     EditorClip.offset selectedClip < Caption.endTime cap)
  /\
  (forall selectedClip now cap,
     let offset := EditorClip.offset selectedClip in
     let duration := EditorClip.duration selectedClip in
     let clampedStart := Qmax 0 (Caption.startTime cap - offset) in
     let clampedEnd := Qmin duration (Caption.endTime cap - offset) in
     (Caption.startTime cap < offset + duration /\
      offset < Caption.endTime cap ->
      0 < clampedEnd - clampedStart ->
      exists c,
        newClips selectedClip now [cap] = [c] /\
        EditorClip.type c = text /\
        EditorClip.startTime c
          == EditorClip.startTime selectedClip + clampedStart /\
        EditorClip.duration c == clampedEnd - clampedStart /\
        EditorClip.name c = Caption.text cap)
     /\
     (~ (Caption.startTime cap < offset + duration /\
         offset < Caption.endTime cap) ->
      newClips selectedClip now [cap] = [])
     /\
     (clampedEnd - clampedStart <= 0 ->
      newClips selectedClip now [cap] = []))
  /\
  (forall timelineStart now label,
     exists c,
       newClips (trimmedClip timelineStart) now [Caption.make 5 8 label] = [c] /\
       EditorClip.startTime c == timelineStart + 3 /\
       EditorClip.duration c == 1 /\
       EditorClip.name c = label)
  /\
  (forall timelineStart now label,
     newClips (trimmedClip timelineStart) now [Caption.make 0 1 label] = [])
  /\
  (forall timelineStart now label,
     newClips (trimmedClip timelineStart) now [Caption.make 6 9 label] = [] /\
     toTextClip (trimmedClip timelineStart) now (Caption.make 6 9 label) 0
       = None /\
     Qmin 4 (9 - 2) - Qmax 0 (6 - 2) == 0).
Proof.
  split; [|split; [|split; [|split; [|split]]]].
  - intros. apply newClips_agrees_from.
  - intros selectedClip cap. apply overlapsTrim_iff.
  - intros selectedClip now cap. apply newClips_single.
  - intros ts now label.
    eexists. split; [reflexivity|]. simpl.
    repeat split; vm_compute Math_max; vm_compute Math_min; lra.
  - intros. reflexivity.
  - intros. repeat split; reflexivity.
Qed.

(** The single-caption part of C1 at the source window [2, 6) placed at
    timeline second 10, for the caption (5, 8). *)
Lemma caption_aligner_follows_spec_witness :
  exists c,
    newClips (trimmedClip 10) frozenClock [Caption.make 5 8 "hello"] = [c] /\
    EditorClip.type c = text /\
    EditorClip.startTime c == 10 + Qmax 0 (5 - 2) /\
    EditorClip.duration c == Qmin 4 (8 - 2) - Qmax 0 (5 - 2) /\
    EditorClip.name c = "hello"%string.
Proof.
  apply (proj1 (proj1 (proj2 (proj2 caption_aligner_follows_spec))
                  (trimmedClip 10) frozenClock (Caption.make 5 8 "hello"))).
  - split; reflexivity.
  - reflexivity.
Defined.

(** Each emitted clip stems from one caption; clips and their captions
    come in the same order. *)
Lemma newClips_origin_from (selectedClip : EditorClip.t) (now : nat -> Z)
    (captions : list Caption.t) (i : nat) :
  exists kept,
    Subseq kept captions /\
    Forall2
      (fun c cap =>
         overlapsTrim selectedClip cap = true /\
         exists index, toTextClip selectedClip now cap index = Some c)
      (filterBoolean
         (mapi (toTextClip selectedClip now) i
            (filter (overlapsTrim selectedClip) captions)))
      kept.
Proof.
  revert i. induction captions as [|cap captions IH]; intro i; simpl.
  - exists []. split; constructor.
  - destruct (overlapsTrim selectedClip cap) eqn:Hov; simpl.
    + destruct (IH (S i)) as (kept & Hsub & Hall).
      destruct (toTextClip selectedClip now cap i) as [c|] eqn:Hc.
      * exists (cap :: kept). split; [now constructor|].
        constructor; [|exact Hall]. split; [exact Hov|]. now exists i.
      * exists kept. split; [now constructor | exact Hall].
    + destruct (IH i) as (kept & Hsub & Hall).
      exists kept. split; [now constructor | exact Hall].
Qed.

(** What the [map] callback guarantees of a clip it returns. *)
Lemma toTextClip_Some (selectedClip : EditorClip.t) (now : nat -> Z)
    (cap : Caption.t) (index : nat) (c : EditorClip.t) :
  toTextClip selectedClip now cap index = Some c ->
  EditorClip.type c = text /\
  EditorClip.src c = EmptyString /\
  EditorClip.offset c = 0 /\
  EditorClip.name c = Caption.text cap /\
  EditorClip.id c = captionId (now index) index /\
  0 < EditorClip.duration c /\
  EditorClip.startTime selectedClip <= EditorClip.startTime c /\
  EditorClip.startTime c + EditorClip.duration c
    <= EditorClip.startTime selectedClip + EditorClip.duration selectedClip /\
  EditorClip.duration c
    <= Caption.endTime cap - Caption.startTime cap.
Proof.
  intro H.
  destruct (toTextClip_cases selectedClip now cap index) as [[_ E]|[Hpos E]];
    rewrite E in H; [discriminate|].
  injection H as <-. simpl.
  repeat split; auto.
  - destruct (Math_max_cases 0
                (Caption.startTime cap - EditorClip.offset selectedClip))
      as [[? ->]|[? ->]]; lra.
  - destruct (Math_min_cases (EditorClip.duration selectedClip)
                (Caption.endTime cap - EditorClip.offset selectedClip))
      as [[? ->]|[? ->]]; lra.
  - destruct (Math_max_cases 0
                (Caption.startTime cap - EditorClip.offset selectedClip))
      as [[? ->]|[? ->]];
    destruct (Math_min_cases (EditorClip.duration selectedClip)
                (Caption.endTime cap - EditorClip.offset selectedClip))
      as [[? ->]|[? ->]]; lra.
Qed.




(** ** Malformed caption spans *)

(** A span that does not start before it ends never survives the [map]
    callback: its clamped length is at most [endTime - startTime]. *)
Lemma toTextClip_malformed (selectedClip : EditorClip.t) (now : nat -> Z)
    (cap : Caption.t) (index : nat) :
  Caption.endTime cap <= Caption.startTime cap ->
  toTextClip selectedClip now cap index = None.
Proof.
  intro Hbad.
  destruct (toTextClip selectedClip now cap index) as [c|] eqn:E;
    [|reflexivity].
  apply toTextClip_Some in E.
  destruct E as (_ & _ & _ & _ & _ & Hpos & _ & _ & Hlen). lra.
Qed.

(** The placement the [map] callback computes does not depend on the
    index it is called with. *)
Lemma toTextClip_placement_index (selectedClip : EditorClip.t)
    (now : nat -> Z) (cap : Caption.t) (i j : nat) :
  option_map placement (toTextClip selectedClip now cap i)
  = option_map placement (toTextClip selectedClip now cap j).
Proof.
  unfold toTextClip. cbv zeta. destruct (Qleb _ 0); reflexivity.
Qed.

Lemma newClips_wellFormed_from (selectedClip : EditorClip.t)
    (now : nat -> Z) (captions : list Caption.t) (i j : nat) :
  map placement
    (filterBoolean
       (mapi (toTextClip selectedClip now) i
          (filter (overlapsTrim selectedClip) captions)))
  = map placement
      (filterBoolean
         (mapi (toTextClip selectedClip now) j
            (filter (overlapsTrim selectedClip)
               (filter wellFormed captions)))).
Proof.
  revert i j. induction captions as [|cap captions IH]; intros i j; simpl.
  - reflexivity.
  - destruct (wellFormed cap) eqn:Hwf; simpl.
    + destruct (overlapsTrim selectedClip cap); simpl; [|apply IH].
      pose proof (toTextClip_placement_index selectedClip now cap i j) as Hp.
      destruct (toTextClip selectedClip now cap i) as [c|];
        destruct (toTextClip selectedClip now cap j) as [c'|];
        try discriminate; simpl.
      * assert (Hc : placement c = placement c')
          by (simpl in Hp; congruence).
        f_equal; [exact Hc | apply IH].
      * apply IH.
    + unfold wellFormed in Hwf. order_facts.
      destruct (overlapsTrim selectedClip cap); simpl; [|apply IH].
      rewrite (toTextClip_malformed selectedClip now cap i Hwf). apply IH.
Qed.

(** The handler shows nothing but its four fixed messages, and writes to
    the console only when the awaited calls throw. *)
Lemma handleAutoCaptions_messages (now : nat -> Z)
    (editorState prev : EditorState.t) (awaited : Awaited) :
  let out := handleAutoCaptions now editorState awaited prev in
  (Outcome.alerts out = [] \/
   Outcome.alerts out = [msgSelectVideo] \/
   Outcome.alerts out = [msgNoSpeech] \/
   Outcome.alerts out = [msgNoneInTrim] \/
   Outcome.alerts out = [msgFailed])
  /\ (Outcome.errors out <> 0%nat -> awaited = Rejected).
Proof.
  cbv zeta. unfold handleAutoCaptions.
  assert (Hclose : forall (msgs : list string) (n : nat) (P : Prop),
             (msgs = [] \/ msgs = [msgSelectVideo] \/ msgs = [msgNoSpeech] \/
              msgs = [msgNoneInTrim] \/ msgs = [msgFailed]) ->
             (n = 0%nat \/ P) ->
             (msgs = [] \/ msgs = [msgSelectVideo] \/ msgs = [msgNoSpeech] \/
              msgs = [msgNoneInTrim] \/ msgs = [msgFailed])
             /\ (n <> 0%nat -> P))
    by (intros msgs n P Hm [Hn|Hp]; split; auto; intro; contradiction).
  destruct (find _ _) as [sel|]; simpl; [|apply Hclose; auto].
  destruct (negb _); simpl; [apply Hclose; auto|].
  destruct awaited as [|captions]; simpl; [apply Hclose; auto 6|].
  destruct (Nat.eqb (List.length captions) 0); simpl;
    [apply Hclose; auto 6|].
  destruct (Nat.eqb _ 0); simpl; apply Hclose; auto 6.
Qed.

(** C9, amended.  For every source clip and every malformed caption span
    ([startTime >= endTime]) the aligner emits no clip for the span: the
    [map] callback returns [null] for it at any index, so a sequence of
    captions yields the same placements as the sequence without its
    malformed spans, and every emitted clip has a strictly positive
    duration.  The span is skipped silently: a run of the handler on
    resolved captions never writes to the console and shows at most one of
    its fixed messages, none of which is about a malformed span. *)
Theorem malformed_caption_dropped_silently
    (selectedClip : EditorClip.t) (now : nat -> Z) (cap : Caption.t) :
  Caption.startTime cap >= Caption.endTime cap ->
  (forall index, toTextClip selectedClip now cap index = None)
  /\ newClips selectedClip now [cap] = []
  /\ (forall captions,
        map placement (newClips selectedClip now captions)
        = map placement
            (newClips selectedClip now (filter wellFormed captions)))
  /\ (forall captions,
        Forall (fun c => 0 < EditorClip.duration c)
          (newClips selectedClip now captions))
  /\ (forall editorState prev captions,
        let out :=
          handleAutoCaptions now editorState (Resolved captions) prev in
        Outcome.errors out = 0%nat /\
        (Outcome.alerts out = [] \/
         Outcome.alerts out = [msgSelectVideo] \/
         Outcome.alerts out = [msgNoSpeech] \/
         Outcome.alerts out = [msgNoneInTrim])).
Proof.
  intro Hbad.
  assert (Hnone : forall index,
             toTextClip selectedClip now cap index = None)
    by (intro index; apply toTextClip_malformed; lra).
  split; [exact Hnone|]. split; [|split; [|split]].
  - unfold newClips. simpl.
    destruct (overlapsTrim selectedClip cap); simpl; [|reflexivity].
    now rewrite Hnone.
  - intro captions. apply newClips_wellFormed_from.
  - intro captions. apply Forall_forall. intros c Hin.
    apply newClips_In in Hin. destruct Hin as (cap' & index & _ & _ & Hc).
    now apply toTextClip_Some in Hc.
  - intros editorState prev captions. cbv zeta.
    destruct (handleAutoCaptions_messages now editorState prev
                (Resolved captions)) as [Hmsg Herr].
    split.
    + destruct (Nat.eq_dec
                  (Outcome.errors
                     (handleAutoCaptions now editorState
                        (Resolved captions) prev)) 0) as [E|E];
        [exact E | discriminate (Herr E)].
    + destruct Hmsg as [H|[H|[H|[H|H]]]]; auto.
      exfalso. revert H. unfold handleAutoCaptions.
      destruct (find _ _) as [sel|]; simpl; [|discriminate].
      destruct (negb _); simpl; [discriminate|].
      destruct (Nat.eqb (List.length captions) 0); simpl; [discriminate|].
      destruct (Nat.eqb _ 0); simpl; discriminate.
Qed.

(** C9 (amended) at the video clip on [0, 10) and the reversed span
    (5, 3). *)
Lemma malformed_caption_dropped_silently_witness :
  newClips videoClip_0_10 frozenClock [Caption.make 5 3 "reversed"] = [].
Proof.
  apply (malformed_caption_dropped_silently videoClip_0_10 frozenClock
           (Caption.make 5 3 "reversed")).
  simpl. unfold Qge, Qle. simpl. lia.
Defined.

(** C9 as stated fails: with the video clip on [0, 10) selected, a run on
    the captions (1, 2) and the reversed span (5, 3) ends exactly as the
    run on the caption (1, 2) alone.  The reversed span passes the overlap
    check, is dropped by the [duration <= 0] test, and leaves no alert and
    no console output: it is skipped without a diagnostic. *)
Lemma malformed_caption_no_diagnostic :
  let good := Caption.make 1 2 "ok" in
  let reversed := Caption.make 5 3 "reversed" in
  let out :=
    handleAutoCaptions frozenClock selectedVideoState
      (Resolved [good; reversed]) selectedVideoState in
  wellFormed reversed = false /\
  overlapsTrim videoClip_0_10 reversed = true /\
  Outcome.alerts out = [] /\
  Outcome.errors out = 0%nat /\
  out = handleAutoCaptions frozenClock selectedVideoState
          (Resolved [good]) selectedVideoState.
Proof.
  vm_compute. repeat split; reflexivity.
Qed.

(** ** Outcomes of [handleAutoCaptions] *)

(** The run of the handler once a video clip is selected and the
    captions have arrived. *)
Lemma handleAutoCaptions_resolved (now : nat -> Z)
    (editorState prev : EditorState.t) (selectedClip : EditorClip.t)
    (captions : list Caption.t) :
  find (fun c => strictEq (EditorClip.id c)
                   (EditorState.selectedClipId editorState))
       (EditorState.clips editorState) = Some selectedClip ->
  EditorClip.type selectedClip = video ->
  handleAutoCaptions now editorState (Resolved captions) prev =
  match captions, newClips selectedClip now captions with
  | [], _ => Outcome.make [msgNoSpeech] 0 prev
  | _ :: _, [] => Outcome.make [msgNoneInTrim] 0 prev
  | _ :: _, (_ :: _) as emitted =>
      Outcome.make [] 0
        (EditorState.make
           (EditorState.currentTime prev) (EditorState.duration prev)
           (EditorState.isPlaying prev) (EditorState.selectedClipId prev)
           (EditorState.clips prev ++ emitted)
           (EditorState.zoomLevel prev))
  end.
Proof.
  intros Hfind Htype. unfold handleAutoCaptions.
  rewrite Hfind, Htype. simpl.
  destruct captions as [|cap captions]; simpl; [reflexivity|].
  destruct (newClips selectedClip now (cap :: captions)); reflexivity.
Qed.

(** C7.  With a video clip selected, a run of the handler on an empty
    caption sequence and a run on a non-empty sequence of which no caption
    survives trimming end in two different reported outcomes (the alert
    "No speech detected or generation failed." against the alert "Captions
    generated but none fall within the trimmed video segment."), and both
    leave the editor state, hence the clip store, as it was.  Clips are
    appended, without any alert, exactly when at least one caption
    survives: then the store is the previous one followed by the emitted
    clips, and a store that changed implies a surviving caption. *)
Theorem caption_outcomes_distinct (now : nat -> Z)
    (editorState prev : EditorState.t) (selectedClip : EditorClip.t)
    (captions : list Caption.t) :
  find (fun c => strictEq (EditorClip.id c)
                   (EditorState.selectedClipId editorState))
       (EditorState.clips editorState) = Some selectedClip ->
  EditorClip.type selectedClip = video ->
  captions <> [] ->
  let run := fun caps =>
    handleAutoCaptions now editorState (Resolved caps) prev in
  run [] = Outcome.make [msgNoSpeech] 0 prev
  /\ (newClips selectedClip now captions = [] ->
      run captions = Outcome.make [msgNoneInTrim] 0 prev /\
      Outcome.alerts (run captions) <> Outcome.alerts (run []) /\
      Outcome.state (run captions) = prev /\
      Outcome.state (run []) = prev)
  /\ (newClips selectedClip now captions <> [] ->
      Outcome.alerts (run captions) = [] /\
      EditorState.clips (Outcome.state (run captions))
        = EditorState.clips prev ++ newClips selectedClip now captions)
  /\ (EditorState.clips (Outcome.state (run captions))
        <> EditorState.clips prev ->
      newClips selectedClip now captions <> []).
Proof.
  intros Hfind Htype Hne run. subst run. cbv beta.
  rewrite (handleAutoCaptions_resolved now editorState prev selectedClip
             captions Hfind Htype).
  rewrite (handleAutoCaptions_resolved now editorState prev selectedClip
             [] Hfind Htype).
  destruct captions as [|cap captions]; [contradiction|].
  split; [reflexivity|].
  destruct (newClips selectedClip now (cap :: captions)) as [|c emitted];
    simpl.
  - split; [|split].
    + intros _. repeat split; try reflexivity. discriminate.
    + intro H. contradiction.
    + intro H. contradiction.
  - split; [|split].
    + discriminate.
    + intros _. split; reflexivity.
    + intros _. discriminate.
Qed.

(** C7 with the video clip on [0, 10) selected and the single caption
    (12, 15), which lies after the clip's source window. *)
Lemma caption_outcomes_distinct_witness :
  let run := fun caps =>
    handleAutoCaptions frozenClock selectedVideoState (Resolved caps)
      selectedVideoState in
  run [Caption.make 12 15 "late"]
    = Outcome.make [msgNoneInTrim] 0 selectedVideoState /\
  Outcome.alerts (run [Caption.make 12 15 "late"])
    <> Outcome.alerts (run []) /\
  Outcome.state (run [Caption.make 12 15 "late"]) = selectedVideoState /\
  Outcome.state (run []) = selectedVideoState.
Proof.
  refine (proj1 (proj2
    (caption_outcomes_distinct frozenClock selectedVideoState
       selectedVideoState videoClip_0_10 [Caption.make 12 15 "late"]
       _ _ _)) _).
  - reflexivity.
  - reflexivity.
  - discriminate.
  - reflexivity.
Defined.

(** ** The timeline projection *)

Lemma ClipType_eqb_eq (a b : ClipType) : ClipType_eqb a b = true <-> a = b.
Proof. destruct a, b; simpl; split; intro H; try reflexivity; discriminate. Qed.

Lemma inInterval_iff (time : Q) (c : EditorClip.t) :
  inInterval time c = true <->
  EditorClip.startTime c <= time /\
  time < EditorClip.startTime c + EditorClip.duration c.
Proof.
  unfold inInterval. rewrite andb_true_iff, Qgeb_ge, Qltb_lt. reflexivity.
Qed.

Lemma isActiveVideo_iff (time : Q) (c : EditorClip.t) :
  isActiveVideo time c = true <->
  EditorClip.type c = video /\
  EditorClip.startTime c <= time /\
  time < EditorClip.startTime c + EditorClip.duration c.
Proof.
  unfold isActiveVideo.
  rewrite andb_true_iff, inInterval_iff, ClipType_eqb_eq. tauto.
Qed.

Lemma isActiveText_iff (time : Q) (c : EditorClip.t) :
  isActiveText time c = true <->
  EditorClip.type c = text /\
  EditorClip.startTime c <= time /\
  time < EditorClip.startTime c + EditorClip.duration c.
Proof.
  unfold isActiveText.
  rewrite andb_true_iff, inInterval_iff, ClipType_eqb_eq. tauto.
Qed.

Lemma not_true_false (b : bool) : b = false <-> ~ b = true.
Proof. destruct b; split; intro H; try reflexivity; try discriminate.
  exfalso. now apply H. Qed.

(** There is no active clip exactly when no video clip's interval
    contains the playhead time. *)
Lemma activeClip_None_iff (editorState : EditorState.t) :
  activeClip editorState = None <->
  forall c,
    In c (EditorState.clips editorState) ->
    ~ (EditorClip.type c = video /\
       EditorClip.startTime c <= EditorState.currentTime editorState /\
       EditorState.currentTime editorState
         < EditorClip.startTime c + EditorClip.duration c).
Proof.
  unfold activeClip. rewrite find_none_iff. split; intros H c Hin.
  - intro Hc. apply isActiveVideo_iff in Hc.
    rewrite (H c Hin) in Hc. discriminate.
  - apply not_true_false. intro Hc. apply (H c Hin).
    now apply isActiveVideo_iff.
Qed.

(** C2 as stated fails on two counts.  With the video clips on [0, 10) and
    [2, 8) stored in this order, at time 4 the specification's rule (last
    match) names the second clip, the code ([Array.prototype.find], first
    match) the first.  With only an image clip on [2, 7), at time 4 the
    specification's rule names the image clip, the code no clip: its
    callback requires [c.type === 'video']. *)
Lemma active_clip_is_first_video_match :
  (spec_activeVisualClip [videoClip_0_10; videoClip_2_8] 4
     = Some videoClip_2_8 /\
   activeClip (stateAt [videoClip_0_10; videoClip_2_8] 4)
     = Some videoClip_0_10 /\
   activeClip (stateAt [videoClip_0_10; videoClip_2_8] 4)
     <> spec_activeVisualClip [videoClip_0_10; videoClip_2_8] 4)
  /\
  (spec_activeVisualClip [imageClip_2_7] 4 = Some imageClip_2_7 /\
   activeClip (stateAt [imageClip_2_7] 4) = None).
Proof.
  repeat split; try reflexivity.
  vm_compute. discriminate.
Qed.

(** C2, amended.  For every editor state (clip collection and playhead
    time) the active clip is chosen among the clips of kind video whose
    half-open interval [startTime, startTime + duration) contains the
    time; image clips are never chosen; when several such clips overlap,
    the first match in collection order, the earliest inserted, is
    selected; there is no active clip exactly when no video clip's
    interval contains the time. *)
Theorem active_clip_first_video_containing_time
    (editorState : EditorState.t) :
  let time := EditorState.currentTime editorState in
  let covers := fun c : EditorClip.t =>
    EditorClip.type c = video /\
    EditorClip.startTime c <= time /\
    time < EditorClip.startTime c + EditorClip.duration c in
  (forall c,
     activeClip editorState = Some c <->
     exists before after,
       EditorState.clips editorState = before ++ c :: after /\
       covers c /\
       forall c', In c' before -> ~ covers c')
  /\
  (activeClip editorState = None <->
   forall c, In c (EditorState.clips editorState) -> ~ covers c).
Proof.
  cbv zeta. unfold activeClip. split.
  - intro c. rewrite find_first. split.
    + intros (l1 & l2 & E & Hp & Hn). exists l1, l2.
      split; [exact E|]. split; [now apply isActiveVideo_iff|].
      intros c' Hin Hc'. apply isActiveVideo_iff in Hc'.
      rewrite (Hn c' Hin) in Hc'. discriminate.
    + intros (l1 & l2 & E & Hp & Hn). exists l1, l2.
      split; [exact E|]. split; [now apply isActiveVideo_iff|].
      intros c' Hin. apply not_true_false. intro Hc'.
      apply (Hn c' Hin). now apply isActiveVideo_iff.
  - apply (activeClip_None_iff editorState).
Qed.

Lemma isVideo_iff (c : EditorClip.t) :
  isVideo c = true <-> EditorClip.type c = video.
Proof. unfold isVideo. apply ClipType_eqb_eq. Qed.

Lemma orNull_Some (v : string) :
  (v <> EmptyString -> orNull (Some v) = Some v) /\
  (v = EmptyString -> orNull (Some v) = None).
Proof.
  unfold orNull, truthy. split; intro H.
  - destruct (String.eqb_spec v EmptyString); [contradiction | reflexivity].
  - subst v. reflexivity.
Qed.

(** C3.  For every editor state (clip collection and playhead time): if no
    video or image clip's interval contains the time, there is no active
    clip and the player falls back to the first clip of kind video in
    collection order, whatever its interval: the player source is that
    clip's [src] (read as [null] when that [src] is the empty string, which
    the player treats like [null]), and [null] if the collection holds no
    video clip.  In particular, on an empty collection there is no active
    clip, the player source is [null] and the caption list is empty. *)
Theorem fallback_to_first_video_clip (editorState : EditorState.t) :
  let time := EditorState.currentTime editorState in
  (forall c,
     In c (EditorState.clips editorState) ->
     EditorClip.type c = video \/ EditorClip.type c = image ->
     ~ (EditorClip.startTime c <= time /\
        time < EditorClip.startTime c + EditorClip.duration c)) ->
  activeClip editorState = None
  /\ (forall before c after,
        EditorState.clips editorState = before ++ c :: after ->
        EditorClip.type c = video ->
        (forall c', In c' before -> EditorClip.type c' <> video) ->
        (EditorClip.src c <> EmptyString ->
         playerSrc editorState = Some (EditorClip.src c)) /\
        (EditorClip.src c = EmptyString -> playerSrc editorState = None))
  /\ ((forall c, In c (EditorState.clips editorState) ->
                 EditorClip.type c <> video) ->
      playerSrc editorState = None)
  /\ (EditorState.clips editorState = [] ->
      activeClip editorState = None /\
      playerSrc editorState = None /\
      activeCaptions editorState = []).
Proof.
  intros time Hout.
  assert (Hnone : activeClip editorState = None).
  { apply activeClip_None_iff.
    intros c Hin [Hv Hc]. apply (Hout c Hin); auto. }
  split; [exact Hnone|]. split; [|split].
  - intros before c after E Hv Hfirst.
    assert (Hfind : find isVideo (EditorState.clips editorState) = Some c).
    { apply find_first. exists before, after.
      split; [exact E|]. split; [now apply isVideo_iff|].
      intros c' Hin. apply not_true_false. intro H.
      apply (Hfirst c' Hin). now apply isVideo_iff. }
    unfold playerSrc. rewrite Hnone, Hfind. simpl. apply orNull_Some.
  - intro Hnov.
    assert (Hfind : find isVideo (EditorState.clips editorState) = None).
    { apply find_none_iff. intros c Hin. apply not_true_false. intro H.
      apply (Hnov c Hin). now apply isVideo_iff. }
    unfold playerSrc. rewrite Hnone, Hfind. reflexivity.
  - intro E. unfold playerSrc, activeCaptions. rewrite Hnone, E.
    repeat split; reflexivity.
Qed.

(** C3 at the single video clip on [2, 8) and playhead time 9: no clip
    covers the playhead and the player shows that clip's source. *)
Lemma fallback_to_first_video_clip_witness :
  activeClip (stateAt [videoClip_2_8] 9) = None /\
  playerSrc (stateAt [videoClip_2_8] 9) = Some "blob:other"%string.
Proof.
  assert (Hout : forall c,
             In c (EditorState.clips (stateAt [videoClip_2_8] 9)) ->
             EditorClip.type c = video \/ EditorClip.type c = image ->
             ~ (EditorClip.startTime c
                  <= EditorState.currentTime (stateAt [videoClip_2_8] 9) /\
                EditorState.currentTime (stateAt [videoClip_2_8] 9)
                  < EditorClip.startTime c + EditorClip.duration c)).
  { intros c [<-|[]] _ [_ H]. vm_compute in H. discriminate. }
  destruct (fallback_to_first_video_clip (stateAt [videoClip_2_8] 9) Hout)
    as (Hnone & Hfirst & _).
  split; [exact Hnone|].
  apply (Hfirst [] videoClip_2_8 []); simpl.
  - reflexivity.
  - reflexivity.
  - intros c' [].
  - discriminate.
Defined.

(** ** Active captions *)

Lemma activeCaptions_app (l1 l2 : list EditorClip.t) (time : Q) :
  activeCaptions (stateAt (l1 ++ l2) time)
  = activeCaptions (stateAt l1 time) ++ activeCaptions (stateAt l2 time).
Proof.
  unfold activeCaptions. simpl. now rewrite filter_app, map_app.
Qed.

(** C4.  For every editor state the active captions depend on the clip
    collection and the playhead time only, and are exactly the labels of
    the text clips whose half-open interval
    [startTime, startTime + duration) contains the time, in collection
    order and without de-duplication: a single clip contributes its label
    if it is such a text clip and nothing otherwise, and the captions of a
    concatenation are the captions of its parts, concatenated; two active
    text clips with the same label give that label twice.  With the video
    clip on [0, 10) and a text clip on [3, 5): at time 4 that video clip is
    active and there is exactly one caption, at time 6 that video clip is
    active and there is none. *)
Theorem active_captions_are_covering_text_labels :
  (forall editorState,
     activeCaptions editorState
     = activeCaptions (stateAt (EditorState.clips editorState)
                               (EditorState.currentTime editorState)))
  /\ (forall time c,
        (EditorClip.type c = text /\
         EditorClip.startTime c <= time /\
         time < EditorClip.startTime c + EditorClip.duration c ->
         activeCaptions (stateAt [c] time) = [EditorClip.name c])
        /\
        (~ (EditorClip.type c = text /\
            EditorClip.startTime c <= time /\
            time < EditorClip.startTime c + EditorClip.duration c) ->
         activeCaptions (stateAt [c] time) = []))
  /\ (forall time l1 l2,
        activeCaptions (stateAt (l1 ++ l2) time)
        = activeCaptions (stateAt l1 time)
          ++ activeCaptions (stateAt l2 time))
  /\ (forall editorState label,
        In label (activeCaptions editorState) <->
        exists c,
          In c (EditorState.clips editorState) /\
          EditorClip.type c = text /\
          EditorClip.startTime c <= EditorState.currentTime editorState /\
          EditorState.currentTime editorState
            < EditorClip.startTime c + EditorClip.duration c /\
          EditorClip.name c = label)
  /\ (forall label,
        activeCaptions (stateAt [textClip_3_5 label; textClip_3_5 label] 4)
        = [label; label])
  /\ (forall label,
        activeClip (stateAt [videoClip_0_10; textClip_3_5 label] 4)
          = Some videoClip_0_10 /\
        activeCaptions (stateAt [videoClip_0_10; textClip_3_5 label] 4)
          = [label] /\
        activeClip (stateAt [videoClip_0_10; textClip_3_5 label] 6)
          = Some videoClip_0_10 /\
        activeCaptions (stateAt [videoClip_0_10; textClip_3_5 label] 6)
          = []).
Proof.
  split; [|split; [|split; [|split; [|split]]]].
  - intro editorState. reflexivity.
  - intros time c. unfold activeCaptions. simpl.
    pose proof (isActiveText_iff time c) as Hiff.
    destruct (isActiveText time c); split; intro H; try reflexivity.
    + exfalso. apply H, Hiff. reflexivity.
    + apply Hiff in H. discriminate.
  - intros. apply activeCaptions_app.
  - intros editorState label. unfold activeCaptions.
    rewrite in_map_iff. split.
    + intros (c & E & Hin). apply filter_In in Hin. destruct Hin as [Hin Hc].
      apply isActiveText_iff in Hc. exists c. tauto.
    + intros (c & Hin & Ht & Hlo & Hhi & E). exists c.
      split; [exact E|]. apply filter_In. split; [exact Hin|].
      apply isActiveText_iff. tauto.
  - intro label. reflexivity.
  - intro label. repeat split; reflexivity.
Qed.

(** The single-clip part of C4 at the text clip on [3, 5) and time 4. *)
Lemma active_captions_are_covering_text_labels_witness :
  activeCaptions (stateAt [textClip_3_5 "Hello"] 4) = ["Hello"%string].
Proof.
  apply (proj1 (proj1 (proj2 active_captions_are_covering_text_labels)
                  4 (textClip_3_5 "Hello"))).
  split; [reflexivity | simpl; lra].
Defined.

(** ** Clip-store mutations *)

Lemma Subseq_filter {A : Type} (p : A -> bool) (l : list A) :
  Subseq (filter p l) l.
Proof.
  induction l as [|x l IH]; simpl.
  - constructor.
  - destruct (p x); now constructor.
Qed.

Lemma filter_all {A : Type} (p : A -> bool) (l : list A) :
  (forall x, In x l -> p x = true) -> filter p l = l.
Proof.
  induction l as [|x l IH]; simpl; intro H; [reflexivity|].
  rewrite (H x (or_introl eq_refl)). f_equal. apply IH.
  intros y Hy. apply H. now right.
Qed.

Lemma truthy_Some (s : option string) :
  truthy s = true <-> exists v, s = Some v /\ v <> EmptyString.
Proof.
  unfold truthy. destruct s as [v|].
  - destruct (String.eqb_spec v EmptyString) as [E|E]; simpl; split.
    + discriminate.
    + intros (v' & Hv & Hne). injection Hv as <-. contradiction.
    + intros _. exists v. auto.
    + reflexivity.
  - split; [discriminate | intros (v & Hv & _); discriminate].
Qed.

(** C6.  For every editor state, [handleDelete] run on that state never
    fails and deletes by the selected id.  If a clip id is selected (the
    guard of the handler holds), the clips whose id equals it are removed
    and the others are kept in their order; if no clip has that id the
    clip collection is left as it is; in either case the selection is
    cleared and the other fields are untouched.  If nothing is selected
    the state is returned unchanged. *)
Theorem delete_selected_clip (editorState : EditorState.t) :
  let next := handleDelete editorState editorState in
  (truthy (EditorState.selectedClipId editorState) = true ->
   exists id,
     EditorState.selectedClipId editorState = Some id /\
     (forall c,
        In c (EditorState.clips next) <->
        In c (EditorState.clips editorState) /\ EditorClip.id c <> id) /\
     Subseq (EditorState.clips next) (EditorState.clips editorState) /\
     ((forall c, In c (EditorState.clips editorState) ->
                 EditorClip.id c <> id) ->
      EditorState.clips next = EditorState.clips editorState) /\
     EditorState.selectedClipId next = None /\
     EditorState.currentTime next = EditorState.currentTime editorState /\
     EditorState.duration next = EditorState.duration editorState /\
     EditorState.isPlaying next = EditorState.isPlaying editorState /\
     EditorState.zoomLevel next = EditorState.zoomLevel editorState)
  /\
  (truthy (EditorState.selectedClipId editorState) = false ->
   next = editorState).
Proof.
  cbv zeta. unfold handleDelete. split; intro Hsel; rewrite Hsel;
    [|reflexivity].
  apply truthy_Some in Hsel. destruct Hsel as (id & E & _).
  exists id. split; [exact E|]. rewrite E. simpl.
  assert (Hkeep : forall c : EditorClip.t,
             negb (String.eqb (EditorClip.id c) id) = true <->
             EditorClip.id c <> id).
  { intro c. rewrite negb_true_iff.
    destruct (String.eqb_spec (EditorClip.id c) id); split; intro H;
      try reflexivity; try discriminate; try assumption; contradiction. }
  split; [|split; [|split]].
  - intro c. rewrite filter_In, Hkeep. reflexivity.
  - apply Subseq_filter.
  - intro Hno. apply filter_all. intros c Hin. apply Hkeep. now apply Hno.
  - repeat split; reflexivity.
Qed.

(** C6 at the state whose only clip, the video clip on [0, 10), is
    selected: the clip is removed and the selection cleared. *)
Lemma delete_selected_clip_witness :
  exists id,
    EditorState.selectedClipId selectedVideoState = Some id /\
    EditorState.clips (handleDelete selectedVideoState selectedVideoState)
      = [] /\
    EditorState.selectedClipId
      (handleDelete selectedVideoState selectedVideoState) = None.
Proof.
  destruct (proj1 (delete_selected_clip selectedVideoState) eq_refl)
    as (id & E & _ & _ & _ & Hsel & _).
  exists id. split; [exact E|]. split; [reflexivity | exact Hsel].
Defined.

(** * Further properties of the editor code *)

(** ** Timeline: clicks, playhead and clip boxes *)

Lemma orElse_cases (a b : Q) :
  (a == 0 /\ orElse a b = b) \/ (~ a == 0 /\ orElse a b = a).
Proof.
  unfold orElse. destruct (Qeq_bool a 0) eqn:E.
  - left. split; [now apply Qeq_bool_iff | reflexivity].
  - right. split; [now apply Qeq_bool_neq | reflexivity].
Qed.

Lemma orElse_pos (a b : Q) : 0 <= a -> 0 < b -> 0 < orElse a b.
Proof.
  intros Ha Hb. destruct (orElse_cases a b) as [[E ->]|[E ->]]; [exact Hb|].
  destruct (Qlt_le_dec 0 a) as [H|H]; [exact H|].
  exfalso. apply E. lra.
Qed.

Lemma Qdiv_mult_cancel (x w : Q) : 0 < w -> x / w * w == x.
Proof. intro H. field. intro E. rewrite E in H. discriminate. Qed.


(** [Math.max(0, Math.min(1, f))] clamps [f] to the unit interval. *)
Lemma clamp_unit (f : Q) :
  0 <= Math_max 0 (Math_min 1 f) /\
  Math_max 0 (Math_min 1 f) <= 1 /\
  (f <= 0 -> Math_max 0 (Math_min 1 f) == 0) /\
  (1 <= f -> Math_max 0 (Math_min 1 f) == 1) /\
  (0 <= f -> f <= 1 -> Math_max 0 (Math_min 1 f) == f).
Proof.
  destruct (Math_min_cases 1 f) as [[Hm ->]|[Hm ->]].
  - destruct (Math_max_cases 0 1) as [[Hx ->]|[Hx ->]];
      repeat split; intros; lra.
  - destruct (Math_max_cases 0 f) as [[Hx ->]|[Hx ->]];
      repeat split; intros; lra.
Qed.

(** X1.  A click on a mounted timeline track of positive width, with a
    non-negative duration in the state, always seeks, and to a time
    between 0 and the effective duration ([duration], or 10 when it is 0):
    0 for a click at or left of the track's left edge, the effective
    duration at or right of its right edge, and in between the clicked
    fraction of the track times the effective duration. *)
Theorem timeline_click_seeks_within_track (rect : DOMRect.t)
    (clientX duration : Q) :
  0 < DOMRect.width rect ->
  0 <= duration ->
  exists time,
    handleTimelineClick (Some rect) clientX duration = Some time /\
    0 <= time /\
    time <= orElse duration 10 /\
    (clientX <= DOMRect.left rect -> time == 0) /\
    (DOMRect.left rect + DOMRect.width rect <= clientX ->
     time == orElse duration 10) /\
    (DOMRect.left rect <= clientX ->
     clientX <= DOMRect.left rect + DOMRect.width rect ->
     time == (clientX - DOMRect.left rect) / DOMRect.width rect
             * orElse duration 10).
Proof.
  intros Hw Hd. unfold handleTimelineClick. cbv zeta.
  eexists. split; [reflexivity|].
  assert (HD : 0 < orElse duration 10) by (apply orElse_pos; lra).
  set (D := orElse duration 10) in *.
  set (x := clientX - DOMRect.left rect).
  destruct (clamp_unit (x / DOMRect.width rect)) as (Hp0 & Hp1 & Hlo & Hhi & Hmid).
  set (p := Math_max 0 (Math_min 1 (x / DOMRect.width rect))) in *.
  split; [nra|]. split; [nra|]. split; [|split].
  - intro Hl. rewrite Hlo; [lra|].
    apply Qle_shift_div_r; [exact Hw | unfold x; lra].
  - intro Hr. rewrite Hhi; [lra|].
    apply Qle_shift_div_l; [exact Hw | unfold x; lra].
  - intros Hl Hr. rewrite Hmid; [reflexivity| |].
    + apply Qle_shift_div_l; [exact Hw | unfold x; lra].
    + apply Qle_shift_div_r; [exact Hw | unfold x; lra].
Qed.

(** X1 for a click at pixel 150 on a track from pixel 100 to 300, with a
    duration of 20 seconds: the seek goes to second 5. *)
Lemma timeline_click_seeks_within_track_witness :
  exists time,
    handleTimelineClick (Some (DOMRect.make 100 200)) 150 20 = Some time /\
    0 <= time /\
    time <= 20 /\
    time == (150 - 100) / 200 * 20.
Proof.
  destruct (timeline_click_seeks_within_track (DOMRect.make 100 200) 150 20
              ltac:(simpl; lra) ltac:(lra))
    as (time & Hclick & H0 & H1 & _ & _ & Hmid).
  exists time. split; [exact Hclick|]. split; [exact H0|].
  split; [exact H1|].
  apply Hmid; simpl; lra.
Defined.


(** X2.  Click, seek and playhead together.  After a click on a mounted
    track of positive width, [handleSeek] stores the time of the click and
    leaves every other field of the state as it was.  If the state's
    duration is positive, the playhead is then drawn within the track,
    between 0 and 100 percent.  If the duration is 0 (no video loaded yet),
    the click handler scales by 10 seconds and the playhead by 1 second: a
    click at or beyond the right edge seeks to second 10 and the playhead
    is drawn at 1000 percent, far outside the track. *)
Theorem playhead_within_track_after_click (s : EditorState.t)
    (rect : DOMRect.t) (clientX time : Q) :
  0 < DOMRect.width rect ->
  0 <= EditorState.duration s ->
  handleTimelineClick (Some rect) clientX (EditorState.duration s)
    = Some time ->
  let next := handleSeek time s in
  EditorState.currentTime next = time /\
  EditorState.duration next = EditorState.duration s /\
  EditorState.isPlaying next = EditorState.isPlaying s /\
  EditorState.selectedClipId next = EditorState.selectedClipId s /\
  EditorState.clips next = EditorState.clips s /\
  EditorState.zoomLevel next = EditorState.zoomLevel s /\
  (0 < EditorState.duration s ->
   0 <= playheadLeft (EditorState.currentTime next)
          (EditorState.duration next) /\
   playheadLeft (EditorState.currentTime next) (EditorState.duration next)
     <= 100) /\
  (EditorState.duration s == 0 ->
   DOMRect.width rect <= clientX - DOMRect.left rect ->
   time == 10 /\
   playheadLeft (EditorState.currentTime next) (EditorState.duration next)
     == 1000).
Proof.
  intros Hw Hd Hclick next. subst next. simpl.
  unfold handleTimelineClick in Hclick. cbv zeta in Hclick.
  injection Hclick as Ht.
  destruct (clamp_unit ((clientX - DOMRect.left rect) / DOMRect.width rect))
    as (Hp0 & Hp1 & _ & Hhi & _).
  set (p := Math_max 0
              (Math_min 1 ((clientX - DOMRect.left rect)
                           / DOMRect.width rect))) in *.
  repeat split; unfold playheadLeft.
  - destruct (orElse_cases (EditorState.duration s) 10) as [[E _]|[_ E10]];
      [lra|].
    destruct (orElse_cases (EditorState.duration s) 1) as [[E _]|[_ ->]];
      [lra|].
    rewrite E10 in Ht.
    assert (H0 : 0 <= time / EditorState.duration s).
    { apply Qle_shift_div_l; [exact H | rewrite <- Ht; nra]. }
    lra.
  - destruct (orElse_cases (EditorState.duration s) 10) as [[E _]|[_ E10]];
      [lra|].
    destruct (orElse_cases (EditorState.duration s) 1) as [[E _]|[_ ->]];
      [lra|].
    rewrite E10 in Ht.
    assert (H1 : time / EditorState.duration s <= 1).
    { apply Qle_shift_div_r; [exact H | rewrite <- Ht; nra]. }
    lra.
  - destruct (orElse_cases (EditorState.duration s) 10) as [[_ E10]|[E _]];
      [|contradiction].
    rewrite E10 in Ht. rewrite <- Ht, Hhi; [reflexivity|].
    apply Qle_shift_div_l; [exact Hw | lra].
  - destruct (orElse_cases (EditorState.duration s) 10) as [[_ E10]|[E _]];
      [|contradiction].
    destruct (orElse_cases (EditorState.duration s) 1) as [[_ ->]|[E _]];
      [|contradiction].
    rewrite E10 in Ht. rewrite <- Ht, Hhi; [field|].
    apply Qle_shift_div_l; [exact Hw | lra].
Qed.

(** X2 for a click at pixel 150 on a track from pixel 100 to 300, with a
    duration of 20 seconds. *)
Lemma playhead_within_track_after_click_witness :
  0 <= playheadLeft
         (EditorState.currentTime
            (handleSeek (Math_max 0 (Math_min 1 ((150 - 100) / 200)) * 20)
               (handleDurationChange 20 initialState)))
         20
  /\
  playheadLeft
    (EditorState.currentTime
       (handleSeek (Math_max 0 (Math_min 1 ((150 - 100) / 200)) * 20)
          (handleDurationChange 20 initialState)))
    20
  <= 100.
Proof.
  refine (proj1 (proj2 (proj2 (proj2 (proj2 (proj2 (proj2
    (playhead_within_track_after_click
       (handleDurationChange 20 initialState)
       (DOMRect.make 100 200) 150
       (Math_max 0 (Math_min 1 ((150 - 100) / 200)) * 20)
       _ _ _))))))) _).
  - reflexivity.
  - simpl. lra.
  - reflexivity.
  - reflexivity.
Defined.

(** X4.  With a positive duration in the state, the box of a clip that
    lies within [0, duration] starts within the track and is not wider
    than the track: its left edge and its width are each between 0 and
    100 percent. *)
Theorem clip_box_within_track (duration : Q) (c : EditorClip.t) :
  0 < duration ->
  0 <= EditorClip.startTime c ->
  0 < EditorClip.duration c ->
  EditorClip.startTime c + EditorClip.duration c <= duration ->
  0 <= clipLeft duration c /\
  clipLeft duration c <= 100 /\
  0 <= clipWidth duration c /\
  clipWidth duration c <= 100.
Proof.
  intros Hd Hs Hc Hend.
  assert (ES : orElse duration 1 = duration).
  { destruct (orElse_cases duration 1) as [[E _]|[_ E]]; [lra | exact E]. }
  unfold clipLeft, clipWidth. rewrite ES.
  assert (L0 : 0 <= EditorClip.startTime c / duration)
    by (apply Qle_shift_div_l; [exact Hd | lra]).
  assert (L1 : EditorClip.startTime c / duration <= 1)
    by (apply Qle_shift_div_r; [exact Hd | lra]).
  assert (W0 : 0 <= EditorClip.duration c / duration)
    by (apply Qle_shift_div_l; [exact Hd | lra]).
  assert (W1 : EditorClip.duration c / duration <= 1)
    by (apply Qle_shift_div_r; [exact Hd | lra]).
  repeat split; lra.
Qed.

(** X4 for the video clip on [2, 8) and a duration of 20 seconds. *)
Lemma clip_box_within_track_witness :
  0 <= clipLeft 20 videoClip_2_8 /\
  clipLeft 20 videoClip_2_8 <= 100 /\
  0 <= clipWidth 20 videoClip_2_8 /\
  clipWidth 20 videoClip_2_8 <= 100.
Proof.
  exact (clip_box_within_track 20 videoClip_2_8
           ltac:(lra) ltac:(simpl; lra) ltac:(simpl; lra)
           ltac:(simpl; lra)).
Defined.

(** X5.  The two tracks of the timeline split the clip collection: every
    stored clip is drawn exactly once, video and image clips on the video
    track and text clips on the text track, each track in collection
    order, and no clip on both. *)
Theorem tracks_partition_clips (clips : list EditorClip.t) :
  Permutation (videoTrack clips ++ textTrack clips) clips /\
  Subseq (videoTrack clips) clips /\
  Subseq (textTrack clips) clips /\
  (forall c, In c (videoTrack clips) <->
             In c clips /\ EditorClip.type c <> text) /\
  (forall c, In c (textTrack clips) <->
             In c clips /\ EditorClip.type c = text).
Proof.
  split; [|split; [|split; [|split]]].
  - unfold videoTrack, textTrack.
    induction clips as [|c clips IH]; simpl; [constructor|].
    destruct (EditorClip.type c); simpl.
    + now constructor.
    + now constructor.
    + apply Permutation_sym, Permutation_cons_app, Permutation_sym, IH.
  - apply Subseq_filter.
  - apply Subseq_filter.
  - intro c. unfold videoTrack. rewrite filter_In.
    destruct (EditorClip.type c); simpl; split; intros [H1 H2];
      split; auto; try discriminate; contradiction.
  - intro c. unfold textTrack. rewrite filter_In, ClipType_eqb_eq.
    reflexivity.
Qed.

(** ** Video player: time follow-up and time display *)

(** X6.  The effect that follows [currentTime] keeps the video element
    within half a second of the editor's time: after it ran the two differ
    by at most 1/2; it leaves the element alone when they already do, and
    running it again changes nothing.  In particular a time the element
    itself reported through [handleTimeUpdate] never makes it seek. *)
Theorem video_time_follows_within_half_second (videoTime currentTime : Q)
    (s : EditorState.t) :
  Qabs (syncVideoTime videoTime currentTime - currentTime) <= 1 # 2
  /\ (Qabs (videoTime - currentTime) <= 1 # 2 ->
      syncVideoTime videoTime currentTime = videoTime)
  /\ (1 # 2 < Qabs (videoTime - currentTime) ->
      syncVideoTime videoTime currentTime = currentTime)
  /\ syncVideoTime (syncVideoTime videoTime currentTime) currentTime
     = syncVideoTime videoTime currentTime
  /\ syncVideoTime videoTime
       (EditorState.currentTime (handleTimeUpdate videoTime s))
     = videoTime.
Proof.
  assert (Hself : forall t, Qgtb (Qabs (t - t)) (1 # 2) = false).
  { intro t. apply not_true_false. intro H. apply Qgtb_gt in H.
    assert (E : t - t == 0) by ring. rewrite E in H. discriminate. }
  assert (Hzero : Qabs (currentTime - currentTime) <= 1 # 2).
  { assert (E0 : currentTime - currentTime == 0) by ring.
    rewrite E0. discriminate. }
  assert (Hlast : syncVideoTime videoTime
                    (EditorState.currentTime (handleTimeUpdate videoTime s))
                  = videoTime).
  { change (EditorState.currentTime (handleTimeUpdate videoTime s))
      with videoTime.
    unfold syncVideoTime. now rewrite Hself. }
  split; [|split; [|split; [|split; [|exact Hlast]]]];
    unfold syncVideoTime;
    destruct (Qgtb (Qabs (videoTime - currentTime)) (1 # 2)) eqn:E;
    cbv iota; try reflexivity.
  - exact Hzero.
  - apply Qnot_lt_le. intro H. apply Qgtb_gt in H. congruence.
  - apply Qgtb_gt in E. intro H. lra.
  - intro H. apply Qgtb_gt in H. congruence.
  - now rewrite Hself.
  - now rewrite E.
Qed.

(** X6 for a video element at second 3 while the editor is at second 7. *)
Lemma video_time_follows_within_half_second_witness :
  syncVideoTime 3 7 = 7.
Proof.
  apply (proj1 (proj2 (proj2
    (video_time_follows_within_half_second 3 7 initialState)))).
  reflexivity.
Defined.


Lemma Qfloor_bounds (x : Q) :
  inject_Z (Qfloor x) <= x /\ x < inject_Z (Qfloor x) + 1.
Proof.
  split; [apply Qfloor_le|].
  pose proof (Qlt_floor x) as F. rewrite inject_Z_plus in F. exact F.
Qed.

Lemma Qfloor_range (x : Q) (lo hi : Z) :
  inject_Z lo <= x -> x < inject_Z hi -> (lo <= Qfloor x < hi)%Z.
Proof.
  intros Hlo Hhi. destruct (Qfloor_bounds x) as [F1 F2].
  assert (A : inject_Z lo < inject_Z (Qfloor x + 1))
    by (rewrite inject_Z_plus; change (inject_Z 1) with 1; lra).
  assert (B : inject_Z (Qfloor x) < inject_Z hi) by lra.
  rewrite <- Zlt_Qlt in A, B. lia.
Qed.

Lemma Math_trunc_nonneg (x : Q) : 0 <= x -> Math_trunc x = Qfloor x.
Proof.
  intro H. unfold Math_trunc. apply Qle_bool_iff in H. now rewrite H.
Qed.


Lemma formatTimeParts_ranges (time : Q) :
  0 <= time ->
  let '(minutes, seconds, hundredths) := formatTimeParts time in
  (0 <= minutes)%Z /\
  (time < 6000 -> (minutes < 100)%Z) /\
  (0 <= seconds < 60)%Z /\
  (0 <= hundredths < 100)%Z.
Proof.
  intro Ht. unfold formatTimeParts, Qrem, Math_floor. cbv zeta.
  pose proof (Qdiv_mult_cancel time 60 ltac:(lra)) as E60.
  pose proof (Qdiv_mult_cancel time 1 ltac:(lra)) as E1.
  rewrite (Math_trunc_nonneg (time / 60)) by lra.
  rewrite (Math_trunc_nonneg (time / 1)) by lra.
  destruct (Qfloor_bounds (time / 60)) as [M1 M2].
  destruct (Qfloor_bounds (time / 1)) as [W1 W2].
  split; [|split; [|split]].
  - apply (Qfloor_range (time / 60) 0 (Qfloor (time / 60) + 1)).
    + change (inject_Z 0) with 0. lra.
    + rewrite inject_Z_plus. exact M2.
  - intro H. apply (Qfloor_range (time / 60) 0 100).
    + change (inject_Z 0) with 0. lra.
    + change (inject_Z 100) with 100. lra.
  - apply Qfloor_range.
    + change (inject_Z 0) with 0. lra.
    + change (inject_Z 60) with 60. lra.
  - apply Qfloor_range.
    + change (inject_Z 0) with 0. lra.
    + change (inject_Z 100) with 100. lra.
Qed.

(** A number from 0 to 99 is printed, padded to two places, as its tens
    digit and its units digit. *)
Lemma padStart_two_digits (z : Z) :
  (0 <= z < 100)%Z ->
  padStart 2 "0" (Z_toString z)
  = String (ascii_of_nat (48 + Z.to_nat z / 10))
      (String (ascii_of_nat (48 + Z.to_nat z mod 10)) EmptyString).
Proof.
  intro Hz.
  assert (Hall :
    forallb
      (fun n =>
         String.eqb (padStart 2 "0" (Z_toString (Z.of_nat n)))
           (String (ascii_of_nat (48 + n / 10))
              (String (ascii_of_nat (48 + n mod 10)) EmptyString)))
      (seq 0 100) = true) by (vm_compute; reflexivity).
  rewrite forallb_forall in Hall.
  specialize (Hall (Z.to_nat z)).
  rewrite Z2Nat.id in Hall by lia.
  apply String.eqb_eq, Hall, in_seq. lia.
Qed.

(** X8.  For a time from 0 up to, but not including, 100 minutes,
    [formatTime] prints exactly eight characters: the minutes, the seconds
    and the hundredths, each as two decimal digits with a leading zero
    where needed, separated by colons. *)
Theorem formatTime_fixed_width (time : Q) :
  0 <= time ->
  time < 6000 ->
  let '(minutes, seconds, hundredths) := formatTimeParts time in
  let digit := fun n : nat => ascii_of_nat (48 + n) in
  formatTime time
  = string_of_list_ascii
      [digit (Z.to_nat minutes / 10)%nat; digit (Z.to_nat minutes mod 10)%nat;
       ":"%char;
       digit (Z.to_nat seconds / 10)%nat; digit (Z.to_nat seconds mod 10)%nat;
       ":"%char;
       digit (Z.to_nat hundredths / 10)%nat;
       digit (Z.to_nat hundredths mod 10)%nat]
  /\ String.length (formatTime time) = 8%nat.
Proof.
  intros Ht Hlt.
  pose proof (formatTimeParts_ranges time Ht) as H.
  unfold formatTime.
  destruct (formatTimeParts time) as [[m s] c].
  destruct H as (Hm0 & Hm & Hs & Hc). specialize (Hm Hlt).
  cbv zeta.
  rewrite (padStart_two_digits m), (padStart_two_digits s),
    (padStart_two_digits c) by lia.
  split; reflexivity.
Qed.

(** X8 at 75.5 seconds. *)
Lemma formatTime_fixed_width_witness :
  formatTime (151 # 2) = "01:15:50"%string /\
  String.length (formatTime (151 # 2)) = 8%nat.
Proof.
  exact (formatTime_fixed_width (151 # 2) ltac:(lra) ltac:(lra)).
Defined.

(** ** Timeline: the ruler *)

Lemma inject_Z_succ (n : nat) :
  inject_Z (Z.of_nat (S n)) == inject_Z (Z.of_nat n) + 1.
Proof.
  rewrite Nat2Z.inj_succ. unfold Z.succ. rewrite inject_Z_plus. reflexivity.
Qed.

(** The loop of [renderTimeMarkers] with [n] markers left to push: it
    ends within [n] iterations and pushes [i], [i + interval], ... *)
Lemma markersLoop_run (totalSeconds interval : Q) (n : nat) :
  0 < interval ->
  forall (fuel : nat) (i : Q),
    (n <= fuel)%nat ->
    totalSeconds < i + inject_Z (Z.of_nat n) * interval ->
    (n = 0%nat \/
     i + (inject_Z (Z.of_nat n) - 1) * interval <= totalSeconds) ->
    exists labels,
      markersLoop fuel i (Finite totalSeconds) interval = Some labels /\
      List.length labels = n /\
      forall k, (k < n)%nat ->
        nth k labels 0 == i + inject_Z (Z.of_nat k) * interval.
Proof.
  intro Hint. induction n as [|n IH]; intros fuel i Hfuel Hhi Hlo.
  - exists []. change (inject_Z (Z.of_nat 0)) with 0 in Hhi.
    split; [|split; [reflexivity | intros k Hk; lia]].
    destruct fuel; simpl;
      (destruct (Qleb i totalSeconds) eqn:E; [order_facts; lra | reflexivity]).
  - destruct Hlo as [Hlo|Hlo]; [discriminate|].
    rewrite inject_Z_succ in Hhi, Hlo.
    assert (Hn : 0 <= inject_Z (Z.of_nat n)).
    { change 0 with (inject_Z 0). rewrite <- Zle_Qle. lia. }
    assert (Hi : i <= totalSeconds) by nra.
    destruct fuel as [|fuel]; [lia|]. simpl.
    apply Qleb_le in Hi. rewrite Hi.
    destruct (IH fuel (i + interval)) as (labels & Hrun & Hlen & Hnth).
    + lia.
    + lra.
    + destruct n as [|n]; [now left | right].
      rewrite inject_Z_succ in *. lra.
    + exists (i :: labels). rewrite Hrun. simpl.
      split; [reflexivity|]. split; [now rewrite Hlen|].
      intros [|k] Hk.
      * change (inject_Z (Z.of_nat 0)) with 0. lra.
      * rewrite (Hnth k) by lia. rewrite inject_Z_succ. lra.
Qed.

(** Against an infinite total the loop condition never fails: the loop
    uses up any fuel. *)
Lemma markersLoop_infinite (fuel : nat) (i interval : Q) :
  markersLoop fuel i Infinite interval = None.
Proof.
  revert i. induction fuel as [|fuel IH]; intro i; simpl; [reflexivity|].
  now rewrite IH.
Qed.

(** X9.  For a finite duration from 0 to 2^53 seconds, the range in which
    the loop counter is computed exactly, the ruler loop terminates and
    draws a marker at every multiple of the interval from 0 up to the
    total ([duration], or 60 when it is 0): with the interval 10 for a
    total above 60 and 5 otherwise, it pushes
    [floor(total / interval) + 1] labels, the label number [k] being
    [k * interval] and none exceeding the total; that many iterations of
    fuel suffice.  For the duration [+Infinity] the loop never ends:
    whatever the fuel, it runs out. *)
Theorem time_markers_are_interval_multiples :
  (forall (duration : Q) (fuel : nat),
     0 <= duration ->
     duration <= 9007199254740992 ->
     let totalSeconds := orElse duration 60 in
     let interval := if Qgtb totalSeconds 60 then 10 else 5 in
     let count := S (Z.to_nat (Qfloor (totalSeconds / interval))) in
     (count <= fuel)%nat ->
     exists labels,
       renderTimeMarkers fuel (Finite duration) = Some labels /\
       List.length labels = count /\
       (forall k, (k < count)%nat ->
          nth k labels 0 == inject_Z (Z.of_nat k) * interval /\
          nth k labels 0 <= totalSeconds) /\
       totalSeconds < inject_Z (Z.of_nat count) * interval)
  /\
  (forall fuel, renderTimeMarkers fuel Infinite = None).
Proof.
  split; [|intro fuel; apply markersLoop_infinite].
  intros duration fuel Hd _ totalSeconds interval count Hfuel.
  assert (HT : 0 < totalSeconds) by (apply orElse_pos; lra).
  assert (Hint : 0 < interval)
    by (unfold interval; destruct (Qgtb totalSeconds 60); lra).
  pose proof (Qdiv_mult_cancel totalSeconds interval Hint) as Ediv.
  destruct (Qfloor_bounds (totalSeconds / interval)) as [F1 F2].
  assert (Hq : (0 <= Qfloor (totalSeconds / interval))%Z).
  { apply (Qfloor_range (totalSeconds / interval) 0
             (Qfloor (totalSeconds / interval) + 1)).
    - change (inject_Z 0) with 0.
      apply Qle_shift_div_l; [exact Hint | lra].
    - rewrite inject_Z_plus. exact F2. }
  assert (Hcount : inject_Z (Z.of_nat count)
                   == inject_Z (Qfloor (totalSeconds / interval)) + 1).
  { unfold count. rewrite inject_Z_succ, Z2Nat.id by exact Hq. reflexivity. }
  assert (Hhi : totalSeconds < 0 + inject_Z (Z.of_nat count) * interval)
    by (rewrite Hcount; nra).
  assert (Hlo : 0 + (inject_Z (Z.of_nat count) - 1) * interval
                <= totalSeconds) by (rewrite Hcount; nra).
  destruct (markersLoop_run totalSeconds interval count Hint fuel 0
              Hfuel Hhi (or_intror Hlo)) as (labels & Hrun & Hlen & Hnth).
  exists labels. split; [exact Hrun|]. split; [exact Hlen|].
  split; [|lra].
  intros k Hk. rewrite (Hnth k Hk). split; [lra|].
  assert (Hk' : inject_Z (Z.of_nat k) <= inject_Z (Z.of_nat count) - 1).
  { assert (Hz : (Z.of_nat k <= Z.of_nat count - 1)%Z) by lia.
    rewrite Zle_Qle in Hz. unfold Zminus in Hz.
    rewrite inject_Z_plus in Hz. exact Hz. }
  nra.
Qed.

(** X9 for a video of 125 seconds: 13 labels, 10 seconds apart. *)
Lemma time_markers_are_interval_multiples_witness :
  exists labels,
    renderTimeMarkers 20 (Finite 125) = Some labels /\
    List.length labels = 13%nat /\
    (forall k, (k < 13)%nat ->
       nth k labels 0 == inject_Z (Z.of_nat k) * 10 /\
       nth k labels 0 <= 125) /\
    125 < inject_Z (Z.of_nat 13) * 10.
Proof.
  refine (proj1 time_markers_are_interval_multiples 125 20%nat _ _ _).
  - lra.
  - lra.
  - vm_compute. lia.
Defined.

(** ** Clip identifiers *)

Lemma string_of_uint_nonempty (d : Decimal.uint) :
  NilZero.string_of_uint d <> EmptyString.
Proof. destruct d; simpl; discriminate. Qed.

Lemma Z_toString_nonempty (n : Z) : Z_toString n <> EmptyString.
Proof.
  unfold Z_toString. destruct (Z.to_int n) as [d|d]; simpl.
  - apply string_of_uint_nonempty.
  - discriminate.
Qed.

Lemma Z_toString_inj (a b : Z) : Z_toString a = Z_toString b -> a = b.
Proof.
  unfold Z_toString. intro H. apply DecimalZ.to_int_inj.
  assert (Hnn : forall n : Z,
             Z.to_int n <> Decimal.Pos Decimal.Nil /\
             Z.to_int n <> Decimal.Neg Decimal.Nil).
  { intros [|p|p]; simpl; split; try discriminate; intro E;
      injection E as E; exact (DecimalPos.Unsigned.to_uint_nonnil p E). }
  pose proof (NilZero.isi (Z.to_int a) (proj1 (Hnn a)) (proj2 (Hnn a))) as Ha.
  pose proof (NilZero.isi (Z.to_int b) (proj1 (Hnn b)) (proj2 (Hnn b))) as Hb.
  rewrite H in Ha. rewrite Ha in Hb. now injection Hb.
Qed.

Lemma Nat_to_uint_nonnil (n : nat) : Nat.to_uint n <> Decimal.Nil.
Proof.
  rewrite <- (DecimalNat.Unsigned.of_to n) at 1.
  rewrite DecimalNat.Unsigned.to_of. apply DecimalFacts.unorm_nonnil.
Qed.

Lemma nat_toString_inj (i j : nat) : nat_toString i = nat_toString j -> i = j.
Proof.
  unfold nat_toString. intro H. apply DecimalNat.Unsigned.to_uint_inj.
  pose proof (NilZero.usu _ (Nat_to_uint_nonnil i)) as Hi.
  pose proof (NilZero.usu _ (Nat_to_uint_nonnil j)) as Hj.
  rewrite H in Hi. rewrite Hi in Hj. now injection Hj.
Qed.

(** The decimal digits of a number hold no dash. *)
Lemma digits_no_dash (d : Decimal.uint) (a b : string) :
  NilEmpty.string_of_uint d <> (a ++ String "-" b)%string.
Proof.
  revert a. induction d; intros [|c a] H; simpl in H;
    try discriminate; injection H as Hc Ht; exact (IHd a Ht).
Qed.

Lemma nat_toString_no_dash (n : nat) (a b : string) :
  nat_toString n <> (a ++ String "-" b)%string.
Proof.
  unfold nat_toString, NilZero.string_of_uint.
  destruct (Nat.to_uint n) eqn:E;
    try (rewrite <- E; apply digits_no_dash);
    try (apply digits_no_dash).
  destruct a as [|c [|c' a]]; simpl; discriminate.
Qed.

(** A string is cut at its last dash in one way only. *)
Lemma last_dash_unique (s1 s2 t1 t2 : string) :
  (forall a b, t1 <> (a ++ String "-" b)%string) ->
  (forall a b, t2 <> (a ++ String "-" b)%string) ->
  (s1 ++ String "-" t1 = s2 ++ String "-" t2)%string ->
  t1 = t2.
Proof.
  intros H1 H2. revert s2.
  induction s1 as [|c s1 IH]; intros [|c' s2] H; simpl in H.
  - now injection H.
  - injection H as _ Ht. exfalso. exact (H1 s2 t2 Ht).
  - injection H as _ Ht. exfalso. exact (H2 s1 t1 (eq_sym Ht)).
  - injection H as _ Ht. exact (IH s2 Ht).
Qed.

Lemma captionId_index (now now' : Z) (i j : nat) :
  captionId now i = captionId now' j -> i = j.
Proof.
  unfold captionId. intro H.
  change ("caption-" ++ Z_toString now ++ "-" ++ nat_toString i)%string
    with ("caption-" ++ (Z_toString now ++ String "-" (nat_toString i)))%string
    in H.
  change ("caption-" ++ Z_toString now' ++ "-" ++ nat_toString j)%string
    with ("caption-" ++ (Z_toString now' ++ String "-" (nat_toString j)))%string
    in H.
  simpl in H. injection H as H.
  apply nat_toString_inj.
  apply (last_dash_unique (Z_toString now) (Z_toString now'));
    [apply nat_toString_no_dash | apply nat_toString_no_dash | exact H].
Qed.

Lemma captionId_not_number (now n : Z) (i : nat) :
  captionId now i <> Z_toString n.
Proof.
  unfold captionId, Z_toString. simpl.
  destruct (Z.to_int n) as [d|d]; simpl; [|discriminate].
  destruct d; simpl; discriminate.
Qed.

(** Every clip of [filterBoolean (mapi (toTextClip ..) i ..)] carries the
    id of an index not below [i]. *)
Lemma emitted_ids_from (selectedClip : EditorClip.t) (now : nat -> Z)
    (l : list Caption.t) (i : nat) (c : EditorClip.t) :
  In c (filterBoolean (mapi (toTextClip selectedClip now) i l)) ->
  exists j, (i <= j)%nat /\ EditorClip.id c = captionId (now j) j.
Proof.
  revert i. induction l as [|cap l IH]; intros i H; simpl in H.
  - contradiction.
  - destruct (toTextClip selectedClip now cap i) as [c0|] eqn:E.
    + destruct H as [<-|H].
      * exists i. split; [lia|]. now apply toTextClip_Some in E.
      * destruct (IH _ H) as (j & Hj & Hid). exists j. split; [lia | exact Hid].
    + destruct (IH _ H) as (j & Hj & Hid). exists j. split; [lia | exact Hid].
Qed.

(** X10.  The ids of the text clips emitted by one run of the caption
    aligner are pairwise distinct, whatever the clock reads while the run
    lasts, and none of them equals an id of the form
    [Date.now().toString()], the form of the ids of uploaded and added
    media clips. *)
Theorem caption_ids_distinct (selectedClip : EditorClip.t) (now : nat -> Z)
    (captions : list Caption.t) :
  NoDup (map EditorClip.id (newClips selectedClip now captions)) /\
  (forall c n, In c (newClips selectedClip now captions) ->
               EditorClip.id c <> Z_toString n).
Proof.
  split.
  - unfold newClips.
    generalize (filter (overlapsTrim selectedClip) captions) as l.
    generalize 0%nat as i.
    intros i l. revert i. induction l as [|cap l IH]; intro i; simpl.
    + constructor.
    + destruct (toTextClip selectedClip now cap i) as [c|] eqn:E;
        [|apply IH].
      simpl. constructor; [|apply IH].
      intro Hin. apply in_map_iff in Hin. destruct Hin as (c' & Hid & Hin).
      apply emitted_ids_from in Hin. destruct Hin as (j & Hj & Hid').
      apply toTextClip_Some in E.
      destruct E as (_ & _ & _ & _ & Hidc & _).
      rewrite Hidc, Hid' in Hid. apply captionId_index in Hid. lia.
  - intros c n Hin. apply emitted_ids_from in Hin.
    destruct Hin as (j & _ & ->). apply captionId_not_number.
Qed.

(** ** What the handlers keep *)

(** The state a run of [handleAutoCaptions] ends in: the state it found,
    or that state with the clips emitted for a stored video clip
    appended. *)
Lemma handleAutoCaptions_state (now : nat -> Z)
    (started prev : EditorState.t) (awaited : Awaited) :
  let out := handleAutoCaptions now started awaited prev in
  Outcome.state out = prev \/
  exists selectedClip captions,
    awaited = Resolved captions /\
    In selectedClip (EditorState.clips started) /\
    EditorClip.type selectedClip = video /\
    newClips selectedClip now captions <> [] /\
    Outcome.alerts out = [] /\
    Outcome.state out =
      EditorState.make
        (EditorState.currentTime prev) (EditorState.duration prev)
        (EditorState.isPlaying prev) (EditorState.selectedClipId prev)
        (EditorState.clips prev ++ newClips selectedClip now captions)
        (EditorState.zoomLevel prev).
Proof.
  cbv zeta. unfold handleAutoCaptions.
  destruct (find _ (EditorState.clips started)) as [sel|] eqn:Hfind;
    [|now left].
  apply find_some in Hfind. destruct Hfind as [Hin _].
  destruct (ClipType_eqb (EditorClip.type sel) video) eqn:Hty; simpl;
    [|now left].
  apply ClipType_eqb_eq in Hty.
  destruct awaited as [|captions]; [now left|].
  destruct (Nat.eqb (List.length captions) 0); [now left|].
  destruct (newClips sel now captions) as [|c emitted] eqn:Hnew; simpl;
    [now left|].
  right. exists sel, captions. rewrite Hnew.
  repeat split; auto. discriminate.
Qed.

(** X11.  Whatever its inputs, a run of [handleAutoCaptions] only ever
    appends text clips: the clips it found stay, in their order, at the
    front of the store, every clip added after them has type [text], and
    playhead, duration, playback flag, selection and zoom are those it
    found; a run that shows an alert leaves the whole state as it was. *)
Theorem handleAutoCaptions_only_appends_text (now : nat -> Z)
    (started prev : EditorState.t) (awaited : Awaited) :
  let out := handleAutoCaptions now started awaited prev in
  (exists added,
     EditorState.clips (Outcome.state out) = EditorState.clips prev ++ added /\
     Forall (fun c => EditorClip.type c = text) added) /\
  EditorState.currentTime (Outcome.state out) = EditorState.currentTime prev /\
  EditorState.duration (Outcome.state out) = EditorState.duration prev /\
  EditorState.isPlaying (Outcome.state out) = EditorState.isPlaying prev /\
  EditorState.selectedClipId (Outcome.state out)
    = EditorState.selectedClipId prev /\
  EditorState.zoomLevel (Outcome.state out) = EditorState.zoomLevel prev /\
  (Outcome.alerts out = [] \/ Outcome.state out = prev).
Proof.
  cbv zeta.
  destruct (handleAutoCaptions_state now started prev awaited)
    as [E|(sel & captions & _ & _ & _ & _ & Hal & E)]; rewrite E.
  - split; [|now auto 7].
    exists []. split; [now rewrite app_nil_r | constructor].
  - simpl. split; [|now auto 7].
    exists (newClips sel now captions). split; [reflexivity|].
    apply Forall_forall. intros c Hin. apply newClips_In in Hin.
    destruct Hin as (cap & index & _ & _ & Hc).
    now apply toTextClip_Some in Hc.
Qed.

Lemma handleTimelineClick_nonneg (rect : DOMRect.t)
    (clientX duration time : Q) :
  0 <= duration ->
  handleTimelineClick (Some rect) clientX duration = Some time ->
  0 <= time.
Proof.
  intros Hd H. unfold handleTimelineClick in H. cbv zeta in H.
  injection H as <-.
  assert (HD : 0 < orElse duration 10) by (apply orElse_pos; lra).
  destruct (clamp_unit ((clientX - DOMRect.left rect) / DOMRect.width rect))
    as (Hp & _). nra.
Qed.

Lemma selection_kept (clips clips' : list EditorClip.t)
    (selected : option string) :
  (forall c, In c clips -> In c clips') ->
  match selected with
  | None => True
  | Some id => exists c, In c clips /\ EditorClip.id c = id
  end ->
  match selected with
  | None => True
  | Some id => exists c, In c clips' /\ EditorClip.id c = id
  end.
Proof.
  intros Hincl. destruct selected as [id|]; [|auto].
  intros (c & Hin & E). exists c. auto.
Qed.

(** The clips the aligner emits for a clip that satisfies the invariant
    satisfy it. *)
Lemma newClips_invariant (selectedClip : EditorClip.t) (now : nat -> Z)
    (captions : list Caption.t) :
  clipInvariant selectedClip ->
  Forall clipInvariant (newClips selectedClip now captions).
Proof.
  intros (_ & _ & Hstart & _). apply Forall_forall. intros c Hin.
  apply newClips_In in Hin. destruct Hin as (cap & index & _ & _ & Hc).
  apply toTextClip_Some in Hc.
  destruct Hc as (Hty & Hsrc & Hoff & _ & Hid & Hpos & Hlo & _).
  unfold clipInvariant. rewrite Hid, Hoff, Hty.
  repeat split; auto; try lra.
  - unfold captionId. simpl. discriminate.
  - intro H. contradiction.
Qed.

(** X12.  Every reachable editor state is well formed: playhead time and
    duration are not negative; every stored clip has a non-empty id, a
    positive duration, a non-negative start and offset 0 (no clip is ever
    trimmed); a text clip has an empty source, and a video or image clip
    has duration 10 or 5, the built-in defaults, whatever duration the
    video element reported; and the selection is empty or is the id of a
    stored clip. *)
Theorem reachable_states_well_formed (s : EditorState.t) :
  Reachable s -> stateInvariant s.
Proof.
  intro H. induction H as
    [ | s time _ IH Ht | s d _ IH Hd | s _ IH
      | s rect clientX time _ IH Hw Hclick | s c _ IH Hin | s _ IH
      | s now url files uploaded _ IH | s now src type _ IH
      | started s now awaited _ IHstarted _ IH ].
  - unfold stateInvariant. simpl. repeat split; try lra. constructor.
  - destruct IH as (_ & Hd & Hclips & Hsel). now repeat split.
  - destruct IH as (Ht & _ & Hclips & Hsel). now repeat split.
  - destruct IH as (Ht & Hd & Hclips & Hsel). now repeat split.
  - destruct IH as (_ & Hd & Hclips & Hsel). repeat split; auto.
    simpl. now apply (handleTimelineClick_nonneg rect clientX _ _ Hd Hclick).
  - destruct IH as (Ht & Hd & Hclips & _). repeat split; auto.
    simpl. now exists c.
  - destruct IH as (Ht & Hd & Hclips & Hsel). unfold handleDelete.
    destruct (truthy (EditorState.selectedClipId s));
      [|now repeat split].
    repeat split; auto. simpl.
    apply Forall_forall. intros c Hin. apply filter_In in Hin.
    rewrite Forall_forall in Hclips. now apply Hclips.
  - destruct IH as (Ht & Hd & Hclips & Hsel). unfold handleFileUpload.
    destruct files as [[|file files]|]; simpl; [now repeat split | | now repeat split].
    destruct (Nat.eqb (List.length (EditorState.clips s)) 0); simpl;
      [|now repeat split].
    repeat split; auto; simpl.
    + constructor; [|constructor].
      unfold clipInvariant. simpl.
      repeat split; try lra; try reflexivity.
      * apply Z_toString_nonempty.
      * destruct (startsWith (File.type file) "video"); discriminate.
      * intros _. now left.
    + eexists. split; [left; reflexivity | reflexivity].
  - destruct IH as (Ht & Hd & Hclips & Hsel). repeat split; auto; simpl.
    + apply Forall_app. split; [exact Hclips|].
      constructor; [|constructor].
      unfold clipInvariant. simpl.
      repeat split; try lra; try reflexivity.
      * apply Z_toString_nonempty.
      * destruct type; discriminate.
      * intros _. now right.
    + apply (selection_kept (EditorState.clips s)); [|exact Hsel].
      intros c Hin. apply in_or_app. now left.
  - destruct IH as (Ht & Hd & Hclips & Hsel).
    destruct (handleAutoCaptions_state now started s awaited)
      as [E|(sel & captions & _ & Hin & _ & _ & _ & E)]; rewrite E.
    + now repeat split.
    + repeat split; auto; simpl.
      * apply Forall_app. split; [exact Hclips|].
        apply newClips_invariant.
        destruct IHstarted as (_ & _ & Hstarted & _).
        rewrite Forall_forall in Hstarted. now apply Hstarted.
      * apply (selection_kept (EditorState.clips s)); [|exact Hsel].
        intros c Hc. apply in_or_app. now left.
Qed.

(** X12 for the state reached by uploading a video file and then adding
    an image at the playhead. *)
Lemma reachable_states_well_formed_witness :
  stateInvariant
    (addToTimeline 1700000000002 "data:image/png;base64,AAAA" asset_image
       (snd (handleFileUpload 1700000000000 "blob:clip"
               (Some [File.make "clip.mp4" "video/mp4"])
               initialState [] initialState))
       (snd (handleFileUpload 1700000000000 "blob:clip"
               (Some [File.make "clip.mp4" "video/mp4"])
               initialState [] initialState))).
Proof.
  apply reachable_states_well_formed.
  apply Reach_addToTimeline, Reach_fileUpload, Reach_init.
Defined.

Lemma filter_length_lt {A : Type} (p : A -> bool) (l : list A) (x : A) :
  In x l -> p x = false -> (List.length (filter p l) < List.length l)%nat.
Proof.
  induction l as [|a l IH]; simpl; intros Hin Hp; [contradiction|].
  pose proof (filter_length_le p l) as Hle.
  destruct Hin as [->|Hin].
  - rewrite Hp. lia.
  - specialize (IH Hin Hp). destruct (p a); simpl; lia.
Qed.

(** X13.  In a well-formed state, as every reachable state is, Delete
    does one of two things: with nothing selected it leaves the state
    exactly as it is; with a clip selected it removes that clip, so the
    store gets strictly shorter, keeps the clips whose id differs, clears
    the selection, and the state stays well formed.  A second Delete right
    after changes nothing more. *)
Theorem delete_removes_selected_or_nothing (s : EditorState.t) :
  stateInvariant s ->
  let next := handleDelete s s in
  ((EditorState.selectedClipId s = None /\ next = s)
   \/
   (exists id c,
      EditorState.selectedClipId s = Some id /\
      In c (EditorState.clips s) /\ EditorClip.id c = id /\
      ~ In c (EditorState.clips next) /\
      (forall c', In c' (EditorState.clips s) -> EditorClip.id c' <> id ->
                  In c' (EditorState.clips next)) /\
      (List.length (EditorState.clips next)
       < List.length (EditorState.clips s))%nat /\
      EditorState.selectedClipId next = None))
  /\ stateInvariant next
  /\ handleDelete next next = next.
Proof.
  intros (Ht & Hd & Hclips & Hsel) next. subst next.
  destruct (EditorState.selectedClipId s) as [id|] eqn:Esel.
  - destruct Hsel as (c & Hin & Hid).
    assert (Hne : id <> EmptyString).
    { rewrite Forall_forall in Hclips. rewrite <- Hid.
      now apply (Hclips c Hin). }
    assert (Htruthy : truthy (Some id) = true).
    { apply truthy_Some. now exists id. }
    unfold handleDelete. rewrite Esel, Htruthy. simpl.
    assert (Hdrop : negb (String.eqb (EditorClip.id c) id) = false)
      by (rewrite Hid, String.eqb_refl; reflexivity).
    split; [|split].
    + right. exists id, c. repeat split; auto.
      * intro H. apply filter_In in H. destruct H as [_ H]. congruence.
      * intros c' Hin' Hne'. apply filter_In. split; [exact Hin'|].
        apply negb_true_iff. now apply String.eqb_neq.
      * now apply (filter_length_lt _ _ c).
    + repeat split; auto. simpl.
      apply Forall_forall. intros c' Hin'. apply filter_In in Hin'.
      rewrite Forall_forall in Hclips. now apply Hclips.
    + reflexivity.
  - unfold handleDelete. rewrite Esel. simpl. rewrite Esel. simpl.
    split; [now left|]. split; [|reflexivity].
    repeat split; auto. now rewrite Esel.
Qed.

(** X13 at the state whose only clip, the video clip on [0, 10), is
    selected. *)
Lemma delete_removes_selected_or_nothing_witness :
  stateInvariant (handleDelete selectedVideoState selectedVideoState) /\
  handleDelete (handleDelete selectedVideoState selectedVideoState)
    (handleDelete selectedVideoState selectedVideoState)
  = handleDelete selectedVideoState selectedVideoState.
Proof.
  refine (proj2 (delete_removes_selected_or_nothing selectedVideoState _)).
  unfold stateInvariant, selectedVideoState. simpl.
  repeat split; try lra.
  - constructor; [|constructor].
    unfold clipInvariant. simpl.
    repeat split; try lra; try discriminate. intros _. now left.
  - exists videoClip_0_10. split; [now left | reflexivity].
Defined.

(** ** Upload, insertion and deletion together *)


(** X14.  Uploading a file into an editor with an empty store and no
    selection records its URL, stores exactly one clip for it, starting
    at 0 with duration 10, of type video if the file's MIME type starts
    with "video" and image otherwise, and selects it; Delete right after
    restores the editor state from before the upload.  With a non-empty
    store, or without a file, an upload leaves the editor state as it
    is. *)
Theorem upload_into_empty_store_and_back :
  (forall now url file rest uploaded s,
     EditorState.clips s = [] ->
     EditorState.selectedClipId s = None ->
     let result :=
       handleFileUpload now url (Some (file :: rest)) s uploaded s in
     fst result = uploaded ++ [url] /\
     (exists c,
        EditorState.clips (snd result) = [c] /\
        EditorState.selectedClipId (snd result) = Some (EditorClip.id c) /\
        EditorClip.src c = url /\
        EditorClip.name c = File.name file /\
        EditorClip.startTime c = 0 /\
        EditorClip.duration c = 10 /\
        EditorClip.type c
          = (if startsWith (File.type file) "video" then video else image)) /\
     handleDelete (snd result) (snd result) = s)
  /\
  (forall now url files uploaded s,
     EditorState.clips s <> [] \/ files = None \/ files = Some [] ->
     snd (handleFileUpload now url files s uploaded s) = s).
Proof.
  split.
  - intros now url file rest uploaded s Hclips Hsel result. subst result.
    unfold handleFileUpload. rewrite Hclips. simpl.
    split; [reflexivity|]. split.
    + eexists. repeat split.
    + unfold handleDelete. simpl.
      assert (Htruthy : negb (String.eqb (Z_toString now) EmptyString) = true).
      { apply negb_true_iff, String.eqb_neq, Z_toString_nonempty. }
      rewrite Htruthy, String.eqb_refl. simpl.
      destruct s as [t d p sel clips z]. simpl in *. now subst.
  - intros now url files uploaded s H. unfold handleFileUpload.
    destruct files as [[|file rest]|]; try reflexivity.
    destruct H as [H|[H|H]]; try discriminate.
    destruct (EditorState.clips s); [contradiction | reflexivity].
Qed.

(** X14 for a first upload, of a video file, into the initial state. *)
Lemma upload_into_empty_store_and_back_witness :
  handleDelete
    (snd (handleFileUpload 1700000000000 "blob:clip"
            (Some [File.make "clip.mp4" "video/mp4"])
            initialState [] initialState))
    (snd (handleFileUpload 1700000000000 "blob:clip"
            (Some [File.make "clip.mp4" "video/mp4"])
            initialState [] initialState))
  = initialState.
Proof.
  exact (proj2 (proj2 (proj1 upload_into_empty_store_and_back
    1700000000000%Z "blob:clip"%string (File.make "clip.mp4" "video/mp4")
    [] [] initialState eq_refl eq_refl))).
Defined.

(** X15.  What an upload into an empty store enables.  After a video
    file was uploaded, Auto Captions works on the uploaded clip: a run on
    captions of which some survive appends, after that clip, the clips the
    aligner emits for it.  After any other file was uploaded, the stored
    clip is an image and every run of Auto Captions ends with the request
    to select a video clip and an unchanged state. *)
Theorem upload_then_auto_captions (now : Z) (url : string) (file : File.t)
    (rest : list File.t) (uploaded : list string) (s : EditorState.t)
    (clock : nat -> Z) :
  EditorState.clips s = [] ->
  let s1 := snd (handleFileUpload now url (Some (file :: rest)) s uploaded s) in
  (startsWith (File.type file) "video" = true ->
   exists c,
     EditorState.clips s1 = [c] /\
     EditorClip.offset c = 0 /\
     forall captions,
       newClips c clock captions <> [] ->
       Outcome.alerts (handleAutoCaptions clock s1 (Resolved captions) s1)
         = [] /\
       EditorState.clips
         (Outcome.state (handleAutoCaptions clock s1 (Resolved captions) s1))
         = c :: newClips c clock captions)
  /\
  (startsWith (File.type file) "video" = false ->
   forall awaited,
     handleAutoCaptions clock s1 awaited s1
     = Outcome.make [msgSelectVideo] 0 s1).
Proof.
  intros Hclips s1. subst s1. unfold handleFileUpload. rewrite Hclips. simpl.
  split; intro Hty; rewrite Hty.
  - eexists. split; [reflexivity|]. split; [reflexivity|].
    intros captions Hne.
    match goal with
    | |- context [handleAutoCaptions _ ?st _ _] =>
        rewrite (handleAutoCaptions_resolved clock st st
                   (EditorClip.make (Z_toString now) video url
                      (File.name file) 10 0 0) captions)
    end.
    + destruct captions as [|cap captions]; [now contradiction Hne|].
      destruct (newClips _ clock (cap :: captions)) as [|c emitted];
        [now contradiction Hne|].
      split; reflexivity.
    + simpl. now rewrite String.eqb_refl.
    + reflexivity.
  - intro awaited. unfold handleAutoCaptions. simpl.
    now rewrite String.eqb_refl.
Qed.

(** X15 for an uploaded image file. *)
Lemma upload_then_auto_captions_witness :
  handleAutoCaptions frozenClock
    (snd (handleFileUpload 1700000000000 "blob:img"
            (Some [File.make "a.png" "image/png"]) initialState []
            initialState))
    (Resolved [Caption.make 1 2 "hi"])
    (snd (handleFileUpload 1700000000000 "blob:img"
            (Some [File.make "a.png" "image/png"]) initialState []
            initialState))
  = Outcome.make [msgSelectVideo] 0
      (snd (handleFileUpload 1700000000000 "blob:img"
              (Some [File.make "a.png" "image/png"]) initialState []
              initialState)).
Proof.
  exact (proj2 (upload_then_auto_captions 1700000000000%Z "blob:img"%string
                  (File.make "a.png" "image/png") [] [] initialState
                  frozenClock eq_refl)
           eq_refl (Resolved [Caption.make 1 2 "hi"])).
Defined.

(** X16.  Ids made from [Date.now()] identify a clip only up to the
    millisecond.  Take two insertions in a row, then select the first
    inserted clip and press Delete.  If both insertions read the same
    clock value, both inserted clips share an id and are deleted together;
    if they read different values, only the first is deleted and the
    second stays, after the surviving older clips. *)
Theorem clips_of_the_same_instant_are_deleted_together
    (now1 now2 : Z) (src1 src2 : string) (type1 type2 : AssetType)
    (s : EditorState.t) :
  let s1 := addToTimeline now1 src1 type1 s s in
  let s2 := addToTimeline now2 src2 type2 s1 s1 in
  let s3 := onSelectClip (Z_toString now1) s2 in
  let survivors :=
    filter (fun c => negb (String.eqb (EditorClip.id c) (Z_toString now1)))
           (EditorState.clips s) in
  (now1 = now2 ->
   EditorState.clips (handleDelete s3 s3) = survivors)
  /\
  (now1 <> now2 ->
   exists second,
     EditorState.clips (handleDelete s3 s3) = survivors ++ [second] /\
     EditorClip.id second = Z_toString now2 /\
     EditorClip.src second = src2).
Proof.
  cbv zeta. unfold handleDelete, onSelectClip, addToTimeline. simpl.
  assert (Htruthy : negb (String.eqb (Z_toString now1) EmptyString) = true).
  { apply negb_true_iff, String.eqb_neq, Z_toString_nonempty. }
  rewrite Htruthy. simpl.
  rewrite <- app_assoc, filter_app. simpl. rewrite String.eqb_refl. simpl.
  split.
  - intros <-. rewrite String.eqb_refl. simpl. now rewrite app_nil_r.
  - intro Hne.
    assert (Hneq : String.eqb (Z_toString now2) (Z_toString now1) = false).
    { apply String.eqb_neq. intro E. apply Hne. symmetry.
      now apply Z_toString_inj. }
    rewrite Hneq. simpl. eexists. repeat split.
Qed.

(** X16 for two insertions that read the same clock value, into the
    initial state. *)
Lemma clips_of_the_same_instant_are_deleted_together_witness :
  EditorState.clips
    (handleDelete
       (onSelectClip (Z_toString 1700000000000)
          (addToTimeline 1700000000000 "blob:b" asset_video
             (addToTimeline 1700000000000 "blob:a" asset_video
                initialState initialState)
             (addToTimeline 1700000000000 "blob:a" asset_video
                initialState initialState)))
       (onSelectClip (Z_toString 1700000000000)
          (addToTimeline 1700000000000 "blob:b" asset_video
             (addToTimeline 1700000000000 "blob:a" asset_video
                initialState initialState)
             (addToTimeline 1700000000000 "blob:a" asset_video
                initialState initialState))))
  = [].
Proof.
  exact (proj1 (clips_of_the_same_instant_are_deleted_together
                  1700000000000 1700000000000 "blob:a" "blob:b"
                  asset_video asset_video initialState) eq_refl).
Defined.

(** ** Captions against the trim window and on the player *)

(** X17.  For a source clip without trim offset (offset 0, as every clip
    the editor creates has), a well-formed caption that lies inside the
    clip's source window [0, duration] is kept whole: the aligner emits
    one text clip placed at [sourceClip.startTime + startTime] with the
    duration [endTime - startTime], carrying the caption's text.  A caption
    that covers the whole window of a clip of positive duration gives a
    text clip with the source clip's own start and duration. *)
Theorem caption_inside_window_kept_whole (selectedClip : EditorClip.t)
    (now : nat -> Z) (cap : Caption.t) :
  EditorClip.offset selectedClip == 0 ->
  (0 <= Caption.startTime cap ->
   Caption.startTime cap < Caption.endTime cap ->
   Caption.endTime cap <= EditorClip.duration selectedClip ->
   exists c,
     newClips selectedClip now [cap] = [c] /\
     EditorClip.startTime c
       == EditorClip.startTime selectedClip + Caption.startTime cap /\
     EditorClip.duration c == Caption.endTime cap - Caption.startTime cap /\
     EditorClip.name c = Caption.text cap)
  /\
  (0 < EditorClip.duration selectedClip ->
   Caption.startTime cap <= 0 ->
   EditorClip.duration selectedClip <= Caption.endTime cap ->
   exists c,
     newClips selectedClip now [cap] = [c] /\
     EditorClip.startTime c == EditorClip.startTime selectedClip /\
     EditorClip.duration c == EditorClip.duration selectedClip /\
     EditorClip.name c = Caption.text cap).
Proof.
  intro Hoff.
  destruct (newClips_single selectedClip now cap) as (Hkeep & _ & _).
  cbv zeta in Hkeep.
  destruct (Q.max_spec 0
              (Caption.startTime cap - EditorClip.offset selectedClip))
    as [[Hx Ex]|[Hx Ex]];
    destruct (Q.min_spec (EditorClip.duration selectedClip)
                (Caption.endTime cap - EditorClip.offset selectedClip))
      as [[Hn En]|[Hn En]];
    (split; [intros H1 H2 H3 | intros H1 H2 H3]);
    (destruct Hkeep as (c & E & _ & Hs & Hd & Hname);
     [split; lra | rewrite Ex, En; lra |];
     exists c; rewrite Hs, Hd, Ex, En;
     repeat split; auto; lra).
Qed.

(** X17 for the caption (3, 5) against the video clip on [0, 10). *)
Lemma caption_inside_window_kept_whole_witness :
  exists c,
    newClips videoClip_0_10 frozenClock [Caption.make 3 5 "inside"] = [c] /\
    EditorClip.startTime c == 0 + 3 /\
    EditorClip.duration c == 5 - 3 /\
    EditorClip.name c = "inside"%string.
Proof.
  refine (proj1 (caption_inside_window_kept_whole videoClip_0_10
                   frozenClock (Caption.make 3 5 "inside") _) _ _ _);
    simpl; lra.
Defined.

Lemma filter_none {A : Type} (p : A -> bool) (l : list A) :
  (forall x, In x l -> p x = false) -> filter p l = [].
Proof.
  induction l as [|a l IH]; simpl; intro H; [reflexivity|].
  rewrite (H a (or_introl eq_refl)). apply IH.
  intros x Hx. apply H. now right.
Qed.

(** X18.  Aligner and projection together: the text clips emitted for a
    source clip are never shown before that clip starts.  If an emitted
    clip's interval contains the time, the time is at or after the source
    clip's [startTime]; and at a time before it none of the emitted clips
    contributes a caption. *)
Theorem emitted_captions_not_shown_before_source_clip
    (selectedClip : EditorClip.t) (now : nat -> Z)
    (captions : list Caption.t) (time : Q) :
  (forall c, In c (newClips selectedClip now captions) ->
             inInterval time c = true ->
             EditorClip.startTime selectedClip <= time)
  /\
  (time < EditorClip.startTime selectedClip ->
   forall before after,
     activeCaptions
       (stateAt (before ++ newClips selectedClip now captions ++ after) time)
     = activeCaptions (stateAt (before ++ after) time)).
Proof.
  assert (Hin : forall c, In c (newClips selectedClip now captions) ->
                          inInterval time c = true ->
                          EditorClip.startTime selectedClip <= time).
  { intros c Hc Hact. apply newClips_In in Hc.
    destruct Hc as (cap & index & _ & _ & Hc).
    apply toTextClip_Some in Hc.
    destruct Hc as (_ & _ & _ & _ & _ & _ & Hlo & _).
    apply inInterval_iff in Hact. lra. }
  split; [exact Hin|].
  intros Hout before after.
  rewrite !activeCaptions_app.
  assert (Hnone : activeCaptions
                    (stateAt (newClips selectedClip now captions) time) = []).
  { unfold activeCaptions. simpl.
    rewrite filter_none; [reflexivity|].
    intros c Hc. apply not_true_false. intro Hact.
    unfold isActiveText in Hact. apply andb_true_iff in Hact.
    destruct Hact as [_ Hact]. specialize (Hin c Hc Hact). lra. }
  now rewrite Hnone.
Qed.

(** X18 for the captions emitted for a clip placed at timeline second 10,
    at second 4. *)
Lemma emitted_captions_not_shown_before_source_clip_witness :
  activeCaptions
    (stateAt ([trimmedClip 10]
              ++ newClips (trimmedClip 10) frozenClock
                   [Caption.make 3 5 "inside"] ++ []) 4)
  = activeCaptions (stateAt ([trimmedClip 10] ++ []) 4).
Proof.
  refine (proj2 (emitted_captions_not_shown_before_source_clip
                   (trimmedClip 10) frozenClock [Caption.make 3 5 "inside"] 4)
            _ [trimmedClip 10] []).
  simpl. lra.
Defined.

(** X19.  The player is only ever handed the source of a stored video
    clip: a non-null [playerSrc] is the [src] of a clip of kind video in
    the store, never of an image or text clip.  When every stored video
    clip has a non-empty source, the player has no source exactly when
    the store holds no video clip; and whenever a video clip's interval
    contains the playhead, the source is that of the first such clip. *)
Theorem player_source_is_a_video_source (s : EditorState.t) :
  (forall url, playerSrc s = Some url ->
     exists c, In c (EditorState.clips s) /\
               EditorClip.type c = video /\ EditorClip.src c = url)
  /\
  ((forall c, In c (EditorState.clips s) -> EditorClip.type c = video ->
              EditorClip.src c <> EmptyString) ->
   (playerSrc s = None <->
    forall c, In c (EditorState.clips s) -> EditorClip.type c <> video))
  /\
  (forall c, activeClip s = Some c -> playerSrc s = Some (EditorClip.src c)).
Proof.
  split; [|split].
  - intros url H. unfold playerSrc in H.
    destruct (activeClip s) as [c|] eqn:Hact.
    + injection H as <-. unfold activeClip in Hact.
      apply find_some in Hact. destruct Hact as [Hin Hc].
      apply isActiveVideo_iff in Hc. exists c. tauto.
    + destruct (find isVideo (EditorState.clips s)) as [c|] eqn:Hfind;
        [|discriminate].
      apply find_some in Hfind. destruct Hfind as [Hin Hc].
      apply isVideo_iff in Hc. simpl in H. unfold orNull in H.
      destruct (truthy (Some (EditorClip.src c))); [|discriminate].
      injection H as <-. exists c. auto.
  - intro Hsrc. unfold playerSrc. split.
    + intros H c Hin Hv.
      destruct (activeClip s) as [a|]; [discriminate|].
      destruct (find isVideo (EditorState.clips s)) as [f|] eqn:Hfind.
      * apply find_some in Hfind. destruct Hfind as [Hfin Hf].
        apply isVideo_iff in Hf. simpl in H.
        destruct (orNull_Some (EditorClip.src f)) as [Hs _].
        rewrite (Hs (Hsrc f Hfin Hf)) in H. discriminate.
      * pose proof (find_none _ _ Hfind c Hin) as Hn.
        apply isVideo_iff in Hv. congruence.
    + intro Hno.
      destruct (activeClip s) as [a|] eqn:Hact.
      * unfold activeClip in Hact. apply find_some in Hact.
        destruct Hact as [Hin Ha]. apply isActiveVideo_iff in Ha.
        exfalso. apply (Hno a Hin). tauto.
      * assert (Hfind : find isVideo (EditorState.clips s) = None).
        { apply find_none_iff. intros c Hin. apply not_true_false.
          intro Hv. apply isVideo_iff in Hv. now apply (Hno c Hin). }
        now rewrite Hfind.
  - intros c H. unfold playerSrc. now rewrite H.
Qed.

(** X19 for the store that holds the video clip on [2, 8) and the image
    clip on [2, 7), at time 9. *)
Lemma player_source_is_a_video_source_witness :
  exists c,
    In c (EditorState.clips (stateAt [imageClip_2_7; videoClip_2_8] 9)) /\
    EditorClip.type c = video /\
    EditorClip.src c = "blob:other"%string.
Proof.
  exact (proj1 (player_source_is_a_video_source
                  (stateAt [imageClip_2_7; videoClip_2_8] 9))
           "blob:other"%string eq_refl).
Defined.

Lemma find_snoc {A : Type} (p : A -> bool) (l : list A) (x : A) :
  find p (l ++ [x]) =
  match find p l with
  | Some y => Some y
  | None => if p x then Some x else None
  end.
Proof.
  induction l as [|a l IH]; simpl; [reflexivity|].
  destruct (p a); [reflexivity | exact IH].
Qed.

(** X20.  Insertion and projection together.  A video inserted at the
    playhead is shown at once only if no stored video clip covers the
    playhead: then the inserted clip becomes the active clip and the
    player gets its source.  If a stored video clip already covers the
    playhead, that clip stays active and the player source is unchanged,
    the new clip being later in the collection.  An inserted image never
    changes the active clip. *)
Theorem inserted_video_shown_unless_covered (now : Z) (src : string)
    (s : EditorState.t) :
  let withVideo := addToTimeline now src asset_video s s in
  let withImage := addToTimeline now src asset_image s s in
  (activeClip s = None ->
   exists c,
     activeClip withVideo = Some c /\
     EditorClip.src c = src /\
     EditorClip.startTime c = EditorState.currentTime s /\
     playerSrc withVideo = Some src)
  /\
  (forall c, activeClip s = Some c ->
     activeClip withVideo = Some c /\
     playerSrc withVideo = playerSrc s)
  /\
  activeClip withImage = activeClip s.
Proof.
  cbv zeta. unfold activeClip, playerSrc, activeClip, addToTimeline. simpl.
  rewrite !find_snoc.
  assert (Hcov : forall ty,
    isActiveVideo (EditorState.currentTime s)
      (EditorClip.make (Z_toString now) ty src
         (match ty with image => "Generated Image"
                      | _ => "Video Clip" end)%string
         5 (EditorState.currentTime s) 0)
    = ClipType_eqb ty video).
  { intro ty. unfold isActiveVideo, inInterval. simpl.
    assert (H1 : Qgeb (EditorState.currentTime s)
                   (EditorState.currentTime s) = true)
      by (apply Qgeb_ge; lra).
    assert (H2 : Qltb (EditorState.currentTime s)
                   (EditorState.currentTime s + 5) = true)
      by (apply Qltb_lt; lra).
    now rewrite H1, H2. }
  split; [|split].
  - intro Hnone. rewrite Hnone.
    rewrite (Hcov video). simpl.
    eexists. repeat split.
  - intros c Hc. rewrite Hc. split; reflexivity.
  - destruct (find _ (EditorState.clips s)); [reflexivity|].
    now rewrite (Hcov image).
Qed.

(** X20 for a video inserted into the initial state. *)
Lemma inserted_video_shown_unless_covered_witness :
  exists c,
    activeClip (addToTimeline 1700000000000 "blob:a" asset_video
                  initialState initialState) = Some c /\
    EditorClip.src c = "blob:a"%string /\
    EditorClip.startTime c = EditorState.currentTime initialState /\
    playerSrc (addToTimeline 1700000000000 "blob:a" asset_video
                 initialState initialState) = Some "blob:a"%string.
Proof.
  exact (proj1 (inserted_video_shown_unless_covered 1700000000000 "blob:a"
                  initialState) eq_refl).
Defined.

(** ** Captions that follow one another *)

Lemma Subseq_In {A : Type} (l1 l2 : list A) (y : A) :
  Subseq l1 l2 -> In y l1 -> In y l2.
Proof.
  intro Hsub. induction Hsub as [|x l1 l2 Hsub IH|x l1 l2 Hsub IH];
    simpl; intro Hy.
  - exact Hy.
  - right. now apply IH.
  - destruct Hy as [Hy|Hy]; [now left | right; now apply IH].
Qed.

Lemma StronglySorted_Subseq {A : Type} (R : A -> A -> Prop)
    (l1 l2 : list A) :
  Subseq l1 l2 -> StronglySorted R l2 -> StronglySorted R l1.
Proof.
  intro Hsub. induction Hsub as [|x l1 l2 Hsub IH|x l1 l2 Hsub IH];
    intro Hs.
  - constructor.
  - apply IH. now inversion Hs.
  - inversion Hs as [|? ? Hs' Hall]; subst. constructor; [now apply IH|].
    rewrite Forall_forall in *. intros y Hy. apply Hall.
    now apply (Subseq_In l1 l2).
Qed.

Lemma Forall2_In_l {A B : Type} (P : A -> B -> Prop) (l1 : list A)
    (l2 : list B) (a : A) :
  Forall2 P l1 l2 -> In a l1 -> exists b, In b l2 /\ P a b.
Proof.
  intro Hall. induction Hall as [|x y l1 l2 Hxy Hall IH]; intro Hin.
  - contradiction.
  - destruct Hin as [<-|Hin].
    + exists y. split; [now left | exact Hxy].
    + destruct (IH Hin) as (b & Hb & Hab). exists b. split; [now right | exact Hab].
Qed.

Lemma StronglySorted_Forall2 {A B : Type} (P : A -> B -> Prop)
    (R : B -> B -> Prop) (R' : A -> A -> Prop) (l1 : list A) (l2 : list B) :
  (forall a a' b b', P a b -> P a' b' -> R b b' -> R' a a') ->
  Forall2 P l1 l2 -> StronglySorted R l2 -> StronglySorted R' l1.
Proof.
  intros Hmap Hall. induction Hall as [|a b l1 l2 Hab Hall IH]; intro Hs.
  - constructor.
  - inversion Hs as [|? ? Hs' Hfa]; subst. constructor; [now apply IH|].
    clear IH Hs Hs'. rewrite Forall_forall in Hfa. apply Forall_forall.
    intros a' Ha'.
    destruct (Forall2_In_l P l1 l2 a' Hall Ha') as (b' & Hb' & Hab').
    exact (Hmap a a' b b' Hab Hab' (Hfa b' Hb')).
Qed.

(** The [map] callback places a later-starting caption no earlier. *)
Lemma toTextClip_start_monotone (selectedClip : EditorClip.t)
    (now : nat -> Z) (cap cap' : Caption.t) (i j : nat)
    (c c' : EditorClip.t) :
  toTextClip selectedClip now cap i = Some c ->
  toTextClip selectedClip now cap' j = Some c' ->
  Caption.startTime cap <= Caption.startTime cap' ->
  EditorClip.startTime c <= EditorClip.startTime c'.
Proof.
  intros H H' Hle.
  destruct (toTextClip_cases selectedClip now cap i) as [[_ E]|[_ E]];
    rewrite E in H; [discriminate|].
  destruct (toTextClip_cases selectedClip now cap' j) as [[_ E']|[_ E']];
    rewrite E' in H'; [discriminate|].
  injection H as <-. injection H' as <-. simpl.
  destruct (Math_max_cases 0
              (Caption.startTime cap - EditorClip.offset selectedClip))
    as [[? ->]|[? ->]];
  destruct (Math_max_cases 0
              (Caption.startTime cap' - EditorClip.offset selectedClip))
    as [[? ->]|[? ->]]; lra.
Qed.

(** X21.  The aligner keeps the order of caption starts: if the captions
    come sorted by [startTime], every caption starting no later than those
    after it, the emitted text clips come sorted by their timeline
    [startTime] in the same way, whatever the trim window. *)
Theorem caption_start_order_preserved (selectedClip : EditorClip.t)
    (now : nat -> Z) (captions : list Caption.t) :
  StronglySorted
    (fun a b => Caption.startTime a <= Caption.startTime b) captions ->
  StronglySorted
    (fun c c' => EditorClip.startTime c <= EditorClip.startTime c')
    (newClips selectedClip now captions).
Proof.
  intro Hs.
  destruct (newClips_origin_from selectedClip now captions 0)
    as (kept & Hsub & Hall).
  refine (StronglySorted_Forall2 _ _ _ _ kept _ Hall
            (StronglySorted_Subseq _ _ _ Hsub Hs)).
  intros c c' cap cap' [_ [i Hc]] [_ [j Hc']] Hle.
  exact (toTextClip_start_monotone selectedClip now cap cap' i j c c'
           Hc Hc' Hle).
Qed.

(** X21 for the captions (1, 3) and (3, 5) against the source window
    [2, 6). *)
Lemma caption_start_order_preserved_witness :
  StronglySorted
    (fun c c' => EditorClip.startTime c <= EditorClip.startTime c')
    (newClips (trimmedClip 10) frozenClock
       [Caption.make 1 3 "one"; Caption.make 3 5 "two"]).
Proof.
  refine (caption_start_order_preserved (trimmedClip 10) frozenClock
            [Caption.make 1 3 "one"; Caption.make 3 5 "two"] _).
  repeat constructor. simpl. lra.
Defined.

(** ** Insertion and the clip invariants *)



